(** * Dependency graph and dependency extraction (deps.py)

    A shallow embedding of [DepGraph], [Node], [Dependency] and
    [extract_dependencies] of [deps.py], with the properties of the
    graph's indexes, its edge store and its queries; then of [record_init]
    and [first] of [deps.py], and of the paths, chains and cursors of
    [path.py]. *)

From Stdlib Require Import Ascii.
From stdpp Require Import gmap strings list fin_maps countable.

Set Default Proof Using "Type".
Open Scope string_scope.

(** ** Python values

    The objects that reach the code as annotations, defaults, factories and
    types.  [PyEmpty] is the sentinel [inspect.Parameter.empty]; a
    [PyDependency] is an instance of the class [Dependency] (what
    [isinstance(x, Dependency)] recognises). *)

Inductive PyObj : Type :=
| PyNone
| PyEmpty
| PyClass (qualname : string)
| PyFunction (qualname : string)
| PyInt (z : Z)
| PyStr (s : string)
| PyDependency (d_factory d_type : PyObj).

Fixpoint PyObj_encode (o : PyObj) : gen_tree (string + Z) :=
  match o with
  | PyNone => GenNode 0 []
  | PyEmpty => GenNode 1 []
  | PyClass q => GenNode 2 [GenLeaf (inl q)]
  | PyFunction q => GenNode 3 [GenLeaf (inl q)]
  | PyInt z => GenNode 4 [GenLeaf (inr z)]
  | PyStr s => GenNode 5 [GenLeaf (inl s)]
  | PyDependency f t => GenNode 6 [PyObj_encode f; PyObj_encode t]
  end.

Fixpoint PyObj_decode (t : gen_tree (string + Z)) : option PyObj :=
  match t with
  | GenNode 0 [] => Some PyNone
  | GenNode 1 [] => Some PyEmpty
  | GenNode 2 [GenLeaf (inl q)] => Some (PyClass q)
  | GenNode 3 [GenLeaf (inl q)] => Some (PyFunction q)
  | GenNode 4 [GenLeaf (inr z)] => Some (PyInt z)
  | GenNode 5 [GenLeaf (inl s)] => Some (PyStr s)
  | GenNode 6 [f; t] =>
      match PyObj_decode f, PyObj_decode t with
      | Some f', Some t' => Some (PyDependency f' t')
      | _, _ => None
      end
  | _ => None
  end.

#[global] Instance PyObj_eq_dec : EqDecision PyObj.
Proof. solve_decision. Defined.

#[global] Instance PyObj_countable : Countable PyObj.
Proof.
  apply (inj_countable PyObj_encode PyObj_decode).
  intros o. induction o as [| | | | | |f IHf t IHt]; simpl; try reflexivity.
  by rewrite IHf, IHt.
Defined.

(** ** Records (class Dependency, class Node)

    Both classes are built by the metaclass [RecordType]: the annotated
    fields become the slots, and no [__eq__] or [__hash__] is defined, so a
    [Node] in a set or as a dict value is compared by object identity.  The
    identity of a node object is its [oid]; two separately constructed nodes
    with equal fields have different [oid]s.  A [Dependency] is read through
    its two fields only ([dependency_type.type] as the key of [type_index],
    [default.factory] in the extraction), so it is the record of its
    fields. *)

Record Dependency : Type := mkDependency {
  factory : PyObj;
  type : PyObj
}.

Record Node : Type := mkNode {
  oid : N;
  name : string;
  dependency_type : Dependency
}.

#[global] Instance Dependency_eq_dec : EqDecision Dependency.
Proof. solve_decision. Defined.

#[global] Instance Dependency_countable : Countable Dependency :=
  inj_countable' (λ d, (factory d, type d)) (λ p, mkDependency p.1 p.2)
    (λ d, match d with mkDependency _ _ => eq_refl end).

#[global] Instance Node_eq_dec : EqDecision Node.
Proof. solve_decision. Defined.

#[global] Instance Node_countable : Countable Node :=
  inj_countable' (λ n, (oid n, name n, dependency_type n))
    (λ p, mkNode p.1.1 p.1.2 p.2)
    (λ n, match n with mkNode _ _ _ => eq_refl end).

(** [isinstance(x, Dependency)], giving the instance when it is one. *)
Definition as_Dependency (x : PyObj) : option Dependency :=
  match x with
  | PyDependency f t => Some (mkDependency f t)
  | _ => None
  end.

(** ** Exceptions and the graph monad *)

Inductive PyError : Type :=
| KeyError (key : string)
| AssertionError
| SignatureError.

Inductive outcome (A : Type) : Type :=
| Return (a : A)
| Raise (e : PyError).
Arguments Return {A} a.
Arguments Raise {A} e.

(** class DepGraph: [type_index] is a [defaultdict(set)], [name_index] a
    dict, [relationships] a set of pairs. *)
Record DepGraph : Type := mkDepGraph {
  type_index : gmap PyObj (gset Node);
  name_index : gmap string Node;
  relationships : gset (Node * Node)
}.

(** A method of [DepGraph]: it runs on the graph object, mutates it in
    place, and returns or raises.  The graph after the call is given in
    both cases. *)
Definition M (A : Type) : Type := DepGraph → outcome A * DepGraph.

Definition ret {A} (a : A) : M A := λ g, (Return a, g).
Definition raise {A} (e : PyError) : M A := λ g, (Raise e, g).
Definition bind {A B} (m : M A) (k : A → M B) : M B :=
  λ g, match m g with
       | (Return a, g') => k a g'
       | (Raise e, g') => (Raise e, g')
       end.
Definition get_graph : M DepGraph := λ g, (Return g, g).

Declare Scope graph_scope.
Delimit Scope graph_scope with graph.
Notation "x <- m ;; k" := (bind m (λ x, k))
  (at level 100, m at next level, right associativity) : graph_scope.
Notation "m >> k" := (bind m (λ _, k))
  (at level 100, right associativity) : graph_scope.
Open Scope graph_scope.

(** [for x in l: body(x)] *)
Fixpoint for_each {A} (l : list A) (body : A → M unit) : M unit :=
  match l with
  | [] => ret tt
  | x :: l' => body x >> for_each l' body
  end.

(** [DepGraph.__init__] *)
Definition DepGraph_init : DepGraph :=
  {| type_index := ∅; name_index := ∅; relationships := ∅ |}.

(** [self.name_index[name]] *)
Definition name_index_getitem (key : string) : M Node :=
  g <- get_graph ;;
  match name_index g !! key with
  | Some node => ret node
  | None => raise (KeyError key)
  end.

(** [self.type_index[t].add(dep)], on a [defaultdict(set)] *)
Definition type_index_add (t : PyObj) (dep : Node) : M unit :=
  λ g, (Return tt,
        {| type_index := <[t := {[dep]} ∪ default ∅ (type_index g !! t)]> (type_index g);
           name_index := name_index g;
           relationships := relationships g |}).

(** [self.name_index[key] = dep] *)
Definition name_index_setitem (key : string) (dep : Node) : M unit :=
  λ g, (Return tt,
        {| type_index := type_index g;
           name_index := <[key := dep]> (name_index g);
           relationships := relationships g |}).

(** [self.relationships.add((a, b))] *)
Definition relationships_add (a b : Node) : M unit :=
  λ g, (Return tt,
        {| type_index := type_index g;
           name_index := name_index g;
           relationships := {[(a, b)]} ∪ relationships g |}).

(** Truth value of the [dependencies] argument: [None] and an empty
    collection are false. *)
Definition truthy (dependencies : option (list Node)) : bool :=
  match dependencies with
  | None | Some [] => false
  | Some (_ :: _) => true
  end.

(** Lines 119-124 of [add_node]: the registration of [dep]. *)
Definition add_node_register (dep : Node) : M unit :=
  g <- get_graph ;;
  if decide (name dep ∈ dom (name_index g)) then ret tt
  else (type_index_add (type (dependency_type dep)) dep >>
        name_index_setitem (name dep) dep).

(** [add_node(dep)] with [dependencies=None], the form of the recursive
    call at line 128: the registration, then a false [if dependencies]. *)
Definition add_node_leaf (dep : Node) : M unit :=
  add_node_register dep >>
  if truthy None then ret tt else ret tt.

(** [DepGraph.add_node].  [dependencies] is [None] or the collection in
    its iteration order. *)
Definition add_node (dep : Node) (dependencies : option (list Node)) : M unit :=
  add_node_register dep >>
  if truthy dependencies then
    for_each (default [] dependencies)
      (λ d, add_node_leaf d >> relationships_add dep d)
  else ret tt.

(** [DepGraph.add_dependencies] *)
Definition add_dependencies (key : string) (dependencies : list Node) : M unit :=
  node <- name_index_getitem key ;;
  for_each dependencies (λ d, relationships_add node d).

(** [assert key in self.name_index] *)
Definition assert_registered (key : string) : M unit :=
  g <- get_graph ;;
  if decide (key ∈ dom (name_index g)) then ret tt else raise AssertionError.

(** [DepGraph.add_relationship] *)
Definition add_relationship (dependent dependence : string) : M unit :=
  assert_registered dependent >>
  assert_registered dependence >>
  a <- name_index_getitem dependent ;;
  b <- name_index_getitem dependence ;;
  relationships_add a b.

(** [DepGraph.get_by_name] *)
Definition get_by_name (key : string) : M Node :=
  name_index_getitem key.

(** [DepGraph.get_dependents]: the [dt] of the pairs whose [dc is node]. *)
Definition get_dependents (key : string) : M (gset Node) :=
  node <- name_index_getitem key ;;
  g <- get_graph ;;
  ret (set_map fst (filter (λ p, p.2 = node) (relationships g))).

(** [DepGraph.get_dependencies]: the [dc] of the pairs whose [dt is node]. *)
Definition get_dependencies (key : string) : M (gset Node) :=
  node <- name_index_getitem key ;;
  g <- get_graph ;;
  ret (set_map snd (filter (λ p, p.1 = node) (relationships g))).

(** ** Sequences of public operations *)

Inductive Op : Type :=
| AddNode (dep : Node) (dependencies : option (list Node))
| AddDependencies (key : string) (dependencies : list Node)
| AddRelationship (dependent dependence : string)
| GetByName (key : string)
| GetDependents (key : string)
| GetDependencies (key : string).

(** The call of one public method; the returned value is dropped. *)
Definition run_op (op : Op) : M unit :=
  match op with
  | AddNode dep dependencies => add_node dep dependencies
  | AddDependencies key dependencies => add_dependencies key dependencies
  | AddRelationship a b => add_relationship a b
  | GetByName key => get_by_name key >> ret tt
  | GetDependents key => get_dependents key >> ret tt
  | GetDependencies key => get_dependencies key >> ret tt
  end.

(** The graph after a sequence of calls, each of which returns or raises
    (a raised exception is caught by the caller, the graph stays). *)
Definition run_ops (ops : list Op) (g : DepGraph) : DepGraph :=
  foldl (λ g op, (run_op op g).2) g ops.

Inductive reachable : DepGraph → Prop :=
| reachable_init : reachable DepGraph_init
| reachable_step g op : reachable g → reachable (run_op op g).2.

(** The vertex set as each index sees it. *)
Definition type_index_nodes (g : DepGraph) : gset Node :=
  ⋃ (map_to_list (type_index g)).*2.

Definition name_index_nodes (g : DepGraph) : gset Node :=
  map_img (name_index g).

(** No dangling edges: both ends of every pair are values of [name_index]. *)
Definition no_dangling_edges (g : DepGraph) : Prop :=
  ∀ a b, (a, b) ∈ relationships g →
         a ∈ name_index_nodes g ∧ b ∈ name_index_nodes g.

#[global] Instance no_dangling_edges_dec g : Decision (no_dangling_edges g).
Proof.
  refine (cast_if (decide (set_Forall
    (λ p, p.1 ∈ name_index_nodes g ∧ p.2 ∈ name_index_nodes g)
    (relationships g)))).
  - intros a b Hab. exact (s (a, b) Hab).
  - intros H. apply n. intros [a b] Hab. exact (H a b Hab).
Defined.

(** The mutations and the way they are called in the states of the
    no-dangling-edges property: the call does not raise, and
    [add_dependencies] is given registered nodes only. *)
Definition is_mutation (op : Op) : bool :=
  match op with
  | AddNode _ _ | AddDependencies _ _ | AddRelationship _ _ => true
  | _ => false
  end.

Definition registered_dependencies (op : Op) (g : DepGraph) : Prop :=
  match op with
  | AddDependencies _ dependencies =>
      Forall (λ d, d ∈ name_index_nodes g) dependencies
  | _ => True
  end.

Inductive reachable_by_mutations : DepGraph → Prop :=
| mutations_init : reachable_by_mutations DepGraph_init
| mutations_step g op :
    reachable_by_mutations g →
    is_mutation op = true →
    (run_op op g).1 = Return tt →
    registered_dependencies op g →
    reachable_by_mutations (run_op op g).2.

(** ** Extraction *)

Module inspect.
(** An [inspect.Parameter] object: the fields the extraction reads.  An absent
    annotation or default is [PyEmpty]. *)
Record parameter : Type := mkParameter {
  annotation : PyObj;
  default : PyObj
}.
End inspect.

(** A callable as [extract_dependencies] sees it: the attribute
    [__dependencies__] when [hasattr] finds one, and the mapping
    [inspect.signature(dependent).parameters] from parameter names to
    parameters, or [None] when [inspect.signature] raises (a builtin without
    a signature).  Dicts are compared as Python compares them, without
    their insertion order. *)
Record Callable : Type := mkCallable {
  dunder_dependencies : option (gmap string Dependency);
  signature_parameters : option (gmap string inspect.parameter)
}.

(** [inspect.signature(dependent).parameters] *)
Definition inspect_signature (dependent : Callable)
  : outcome (gmap string inspect.parameter) :=
  match signature_parameters dependent with
  | Some parameters => Return parameters
  | None => Raise SignatureError
  end.

(** The value of the dict comprehension at line 177. *)
Definition parameter_dependency (p : inspect.parameter) : Dependency :=
  {| type := inspect.annotation p;
     factory := match as_Dependency (inspect.default p) with
                | Some d => factory d
                | None => inspect.annotation p
                end |}.

(** [{k: f(p) for k, p in parameters.items()}] *)
Definition dict_comprehension {A B} (f : A → B) (parameters : gmap string A)
  : gmap string B :=
  list_to_map ((λ kp, (kp.1, f kp.2)) <$> map_to_list parameters).

Definition extract_dependencies (dependent : Callable)
  : outcome (gmap string Dependency) :=
  match dunder_dependencies dependent with
  | Some deps => Return deps
  | None =>
      match inspect_signature dependent with
      | Return parameters =>
          Return (dict_comprehension parameter_dependency parameters)
      | Raise e => Raise e
      end
  end.

(** ** Properties of the graph *)

(** The graph after the loop of [add_node], as an iteration over the
    dependencies. *)
Definition add_node_loop_step (dep : Node) (g : DepGraph) (d : Node) : DepGraph :=
  (relationships_add dep d (add_node_register d g).2).2.

Definition index_symmetry (g : DepGraph) : Prop :=
  type_index_nodes g = name_index_nodes g.

(** The registrations that one [add_node] call performs, in order. *)
Definition register_all (nodes : list Node) (g : DepGraph) : DepGraph :=
  foldl (λ g d, (add_node_register d g).2) g nodes.

(** No two different node objects compete for a name: a node of [nodes]
    whose name is bound in [name_index] is the node bound there, and two
    nodes of [nodes] with one name are one object. *)
Definition names_agree (g : DepGraph) (nodes : list Node) : Prop :=
  (∀ m first, m ∈ nodes → name_index g !! name m = Some first → first = m) ∧
  (∀ m m', m ∈ nodes → m' ∈ nodes → name m = name m' → m = m').

(** What [add_node(n, dependencies={d1, d2})] is said to achieve on a new
    graph, for the iteration order [l] of the set: the call returns, each of
    the three nodes is what [get_by_name] returns for its name, and
    [get_dependencies(n.name)] returns [{d1, d2}]. *)
Definition transitive_registration (n d1 d2 : Node) (l : list Node) : Prop :=
  let g := (add_node n (Some l) DepGraph_init).2 in
  (add_node n (Some l) DepGraph_init).1 = Return tt ∧
  (get_by_name (name n) g).1 = Return n ∧
  (get_by_name (name d1) g).1 = Return d1 ∧
  (get_by_name (name d2) g).1 = Return d2 ∧
  (get_dependencies (name n) g).1 = Return {[d1; d2]}.

(** The nodes that one call files under names while it also adds edges. *)
Definition op_nodes (op : Op) : list Node :=
  match op with
  | AddNode dep dependencies =>
      match default [] dependencies with
      | [] => []
      | l => dep :: l
      end
  | _ => []
  end.

(** ** Concrete objects used in the examples *)

Module Examples.
Definition int : PyObj := PyClass "int".
Definition make_b : PyObj := PyFunction "make_b".

Definition node_a : Node := mkNode 1 "a" (mkDependency int int).
Definition node_b : Node := mkNode 2 "b" (mkDependency int int).
Definition node_c : Node := mkNode 3 "c" (mkDependency int int).
(** A second node object that carries the name of [node_a]. *)
Definition node_a' : Node := mkNode 4 "a" (mkDependency int int).

Definition graph_a : DepGraph := (add_node node_a None DepGraph_init).2.
Definition graph_ab : DepGraph := (add_node node_a (Some [node_b]) DepGraph_init).2.

(** [def f(a: int, b: int = Dependency(factory=make_b, type=int))] *)
Definition f_parameters : gmap string inspect.parameter :=
  {[ "a" := inspect.mkParameter int PyEmpty;
     "b" := inspect.mkParameter int (PyDependency make_b int) ]}.
Definition f : Callable := mkCallable None (Some f_parameters).

(** [def h(x)]: no annotation, no default. *)
Definition h : Callable :=
  mkCallable None (Some {[ "x" := inspect.mkParameter PyEmpty PyEmpty ]}).

(** A builtin without a signature that carries [__dependencies__]. *)
Definition declared : Callable :=
  mkCallable (Some {[ "dep1" := mkDependency make_b int ]}) None.
End Examples.

(** The builtin class [dict] as a callable: it carries no
    [__dependencies__], and [inspect.signature(dict)] raises [ValueError]
    (no signature found for a builtin type). *)
Definition builtin_dict : Callable := mkCallable None None.

(** ** Further properties of the graph *)

(** A property that reads the two indexes only. *)
Definition index_only (P : DepGraph → Prop) : Prop :=
  ∀ g g', type_index g' = type_index g → name_index g' = name_index g →
          P g → P g'.

(** Every key of [name_index] is the name of the node stored under it. *)
Definition names_keyed (g : DepGraph) : Prop :=
  ∀ key n, name_index g !! key = Some n → name n = key.

(** [type_index] files each registered node under the type of its
    dependency, files nothing else, and holds no empty set. *)
Definition filed_by_type (g : DepGraph) : Prop :=
  (∀ t s n, type_index g !! t = Some s → n ∈ s →
            type (dependency_type n) = t ∧ name_index g !! name n = Some n) ∧
  (∀ key n, name_index g !! key = Some n →
            ∃ s, type_index g !! type (dependency_type n) = Some s ∧ n ∈ s) ∧
  (∀ t s, type_index g !! t = Some s → s ≠ ∅).

(** The graph only grows: what [g] holds, [g'] holds. *)
Definition grows (g g' : DepGraph) : Prop :=
  (∀ key n, name_index g !! key = Some n → name_index g' !! key = Some n) ∧
  (∀ t s, type_index g !! t = Some s →
          ∃ s', type_index g' !! t = Some s' ∧ s ⊆ s') ∧
  relationships g ⊆ relationships g'.

(** The graphs reached by calls in which no two node objects compete for a
    name and [add_dependencies] is given registered nodes. *)
Inductive reachable_without_clash : DepGraph → Prop :=
| without_clash_init : reachable_without_clash DepGraph_init
| without_clash_step g op :
    reachable_without_clash g →
    registered_dependencies op g →
    names_agree g (op_nodes op) →
    reachable_without_clash (run_op op g).2.

(** ** Records built by [record_init] (deps.py)

    [record_init] is the [__init__] of the classes made by [RecordType]
    ([Dependency], [Node]).  Their instances have the slots of the class
    (the bases add none) and no [__dict__], so [setattr] with another name
    raises [AttributeError]; the one name that is not a slot and is not
    refused this way is [__class__], which reaches the setter of
    [object.__class__].  An instance under construction is the map of the
    slots set so far. *)

Module record.

(** [ClassAssignment v] is [setattr(self, "__class__", v)]: a [TypeError],
    unless [v] is a class with the layout of the instance's class, whose
    instance [self] then becomes; the model stops there.  [TypeError] is
    the failure to bind the arguments of a call. *)
Inductive init_outcome : Type :=
| Initialised (attrs : gmap string PyObj)
| AttributeError (attr : string)
| ClassAssignment (v : PyObj)
| TypeError (argument : string).

(** [setattr(self, k, v)] *)
Definition setattr (slots : list string) (self : gmap string PyObj)
    (k : string) (v : PyObj) : init_outcome :=
  if decide (k ∈ slots) then Initialised (<[k := v]> self)
  else if decide (k = "__class__") then ClassAssignment v
  else AttributeError k.

(** [for k, v in items: setattr(self, k, v)], stopping at the first raise. *)
Fixpoint setattr_all (slots : list string) (self : gmap string PyObj)
    (items : list (string * PyObj)) : init_outcome :=
  match items with
  | [] => Initialised self
  | (k, v) :: items' =>
      match setattr slots self k v with
      | Initialised self' => setattr_all slots self' items'
      | raised => raised
      end
  end.

(** [zip(args, slots)], as the pairs [(k, a)] that the first loop sets. *)
Fixpoint zip_args (args : list PyObj) (slots : list string)
  : list (string * PyObj) :=
  match args, slots with
  | a :: args', k :: slots' => (k, a) :: zip_args args' slots'
  | _, _ => []
  end.

(** [record_init(self, *args, **kwargs)], for a class whose [__slots__] is
    [slots]; [kwargs] is the dict the body receives, in call order. *)
Definition record_init (slots : list string) (self : gmap string PyObj)
    (args : list PyObj) (kwargs : list (string * PyObj)) : init_outcome :=
  match setattr_all slots self (zip_args args slots) with
  | Initialised self' => setattr_all slots self' kwargs
  | raised => raised
  end.


(** The slots of [Dependency] and the instance that the record
    [Dependency] of the graph stands for. *)
Definition Dependency_slots : list string := ["factory"; "type"].

Definition Dependency_attrs (d : Dependency) : gmap string PyObj :=
  {[ "factory" := factory d; "type" := type d ]}.

End record.

(** ** Paths (path.py) *)

Module path.

(** [pred is None or pred(x)] *)
Definition selected {A} (pred : option (A → bool)) (x : A) : bool :=
  match pred with
  | None => true
  | Some p => p x
  end.

(** [next(it, default)] on the values an iterator gives. *)
Definition next_or {A} (it : list A) (default : A) : A :=
  match it with
  | x :: _ => x
  | [] => default
  end.

(** [first(it, default, pred)], of path.py and of deps.py. *)
Definition first {A} (it : list A) (default : A) (pred : option (A → bool)) : A :=
  next_or (List.filter (selected pred) it) default.

(** [collections.deque(it, maxlen=1)]: each value pushes out the one
    before it. *)
Definition deque_maxlen_1 {A} (it : list A) : list A :=
  foldl (λ _ x, [x]) [] it.

(** [last(it, default, pred)] *)
Definition last {A} (it : list A) (default : A) (pred : option (A → bool)) : A :=
  next_or (deque_maxlen_1 (List.filter (selected pred) it)) default.

(** *** Strings *)

(** [s.lstrip(chars)]: the leading characters that are in [chars] go. *)
Fixpoint str_lstrip (chars : list Ascii.ascii) (s : string) : string :=
  match s with
  | EmptyString => EmptyString
  | String c s' => if decide (c ∈ chars) then str_lstrip chars s' else s
  end.

(** [s.split(sep)] for a separator of one character: never an empty list,
    and two separators in a row delimit an empty string. *)
Fixpoint str_split (sep : Ascii.ascii) (s : string) : list string :=
  match s with
  | EmptyString => [EmptyString]
  | String c s' =>
      if decide (c = sep) then EmptyString :: str_split sep s'
      else match str_split sep s' with
           | piece :: pieces => String c piece :: pieces
           | [] => [String c EmptyString]
           end
  end.

(** [sep.join(pieces)] *)
Fixpoint str_join (sep : string) (pieces : list string) : string :=
  match pieces with
  | [] => EmptyString
  | [piece] => piece
  | piece :: pieces' => piece +:+ sep +:+ str_join sep pieces'
  end.

(** [c in s] for a character. *)
Fixpoint str_contains (c : Ascii.ascii) (s : string) : bool :=
  match s with
  | EmptyString => false
  | String c' s' => bool_decide (c' = c) || str_contains c s'
  end.

(** *** Path, AttrPath, KeyPath *)

(** [type(self)] of a path that is not a [PathChain]. *)
Inductive PathType : Type := TPath | TAttrPath | TKeyPath.

#[global] Instance PathType_eq_dec : EqDecision PathType.
Proof. solve_decision. Defined.

(** A path is a tuple of components with its class. *)
Record Path : Type := mkPath {
  path_type : PathType;
  components : list string
}.

#[global] Instance Path_eq_dec : EqDecision Path.
Proof. solve_decision. Defined.

(** [Path.prepend]: [type(self)(c, *self)] *)
Definition prepend (self : Path) (c : string) : Path :=
  mkPath (path_type self) (c :: components self).

(** [Path.append]: [type(self)( *self, c)] *)
Definition append (self : Path) (c : string) : Path :=
  mkPath (path_type self) (components self ++ [c])%list.

(** [Path.__truediv__] and [Path.__rtruediv__] *)
Definition truediv (self : Path) (c : string) : Path := append self c.
Definition rtruediv (self : Path) (c : string) : Path := prepend self c.

Definition dollar : Ascii.ascii := "$"%char.
Definition dot : Ascii.ascii := "."%char.
Definition colon : Ascii.ascii := ":"%char.

(** [AttrPath.__str__] *)
Definition AttrPath_str (self : Path) : string :=
  "$." +:+ str_join "." (components self).

(** [AttrPath.from_str] *)
Definition AttrPath_from_str (s : string) : Path :=
  mkPath TAttrPath (str_split dot (str_lstrip [dollar; dot] s)).

(** [KeyPath.from_str] *)
Definition KeyPath_from_str (s : string) : Path :=
  mkPath TKeyPath (str_split colon (str_lstrip [dollar; colon] s)).

(** *** Objects

    The code reads objects through [getattr(obj, at)] and [obj[at]] only.
    [Missing] is the exception the getter catches ([AttributeError] for
    [getattr], [KeyError] for [obj[at]]); [Failed] is any other exception
    (a [TypeError] of an object that is not subscriptable). *)

Inductive lookup_outcome (V E : Type) : Type :=
| Found (v : V)
| Missing
| Failed (e : E).
Arguments Found {V E} v.
Arguments Missing {V E}.
Arguments Failed {V E} e.

Class Objects : Type := {
  Value : Type;
  Exc : Type;
  py_getattr : Value → string → lookup_outcome Value Exc;
  py_getitem : Value → string → lookup_outcome Value Exc;
  py_None : Value
}.

Inductive PathError `{Objects} : Type :=
| InvalidPath (p : Path) (obj : Value)
| NotImplementedError
| ValueError
| IndexError
| StopIteration
| Uncaught (e : Exc).

(** What a generator did when it was run to its end: the values it
    yielded, and the exception that ended it, if one did. *)
Definition generated `{Objects} : Type := (list Value * option PathError)%type.

(** [self._getter(obj, at)]: [Path._getter] raises [NotImplementedError],
    [AttrPath._getter] and [KeyPath._getter] turn the missing attribute or
    key into [InvalidPath(self, obj)]. *)
Definition _getter `{Objects} (self : Path) (obj : Value) (at_ : string)
  : Value + PathError :=
  match path_type self with
  | TPath => inr NotImplementedError
  | TAttrPath =>
      match py_getattr obj at_ with
      | Found v => inl v
      | Missing => inr (InvalidPath self obj)
      | Failed e => inr (Uncaught e)
      end
  | TKeyPath =>
      match py_getitem obj at_ with
      | Found v => inl v
      | Missing => inr (InvalidPath self obj)
      | Failed e => inr (Uncaught e)
      end
  end.

(** The loop of [Path.follow] over the components that are left. *)
Fixpoint follow_loop `{Objects} (self : Path) (cwd : Value) (cs : list string)
  : generated :=
  match cs with
  | [] => ([], None)
  | c :: cs' =>
      match _getter self cwd c with
      | inl cwd' =>
          let '(ys, e) := follow_loop self cwd' cs' in (cwd' :: ys, e)
      | inr e => ([], Some e)
      end
  end.

(** [Path.follow] *)
Definition follow `{Objects} (self : Path) (obj : Value) : generated :=
  follow_loop self obj (components self).

(** [Path.follow_or] *)
Definition follow_or `{Objects} (self : Path) (obj default : Value) : generated :=
  match follow self obj with
  | (ys, Some (InvalidPath _ _)) => ((ys ++ [default])%list, None)
  | g => g
  end.

(** [cd(obj, path)]: [last] runs the generator to its end. *)
Definition cd `{Objects} (obj : Value) (p : Path) : Value + PathError :=
  match follow p obj with
  | (ys, None) => inl (last ys py_None None)
  | (_, Some e) => inr e
  end.

(** [next(gen)] on a new generator. *)
Definition next `{Objects} (gen : generated) : Value + PathError :=
  match gen with
  | (y :: _, _) => inl y
  | ([], Some e) => inr e
  | ([], None) => inr StopIteration
  end.

(** *** Cursor *)

Record Cursor `{Objects} : Type := mkCursor {
  track : list (string * Value);
  destination : Path
}.

(** [Cursor.back] *)
Definition back `{Objects} (self : Cursor) : Cursor + PathError :=
  match list.last (track self) with
  | Some (at_, _) =>
      inl {| track := take (length (track self) - 2) (track self);
             destination := prepend (destination self) at_ |}
  | None => inr ValueError
  end.

(** [Cursor.forward] *)
Definition forward `{Objects} (self : Cursor) : Cursor + PathError :=
  match list.last (track self), components (destination self) with
  | Some (at_, focus), c :: _ =>
      match next (follow (destination self) focus) with
      | inl v =>
          inl {| track := (track self ++ [(c, v)])%list;
                 destination := prepend (destination self) at_ |}
      | inr e => inr e
      end
  | _, _ => inr ValueError
  end.

(** [Cursor.get] *)
Definition get `{Objects} (self : Cursor) : Value + PathError :=
  match list.last (track self) with
  | Some (_, focus) => inl focus
  | None => inr IndexError
  end.

(** *** An object model for the examples: trees of instances and dicts *)

Inductive Tree : Type :=
| TNone
| TInt (z : Z)
| TObject (attrs : list (string * Tree))
| TDict (items : list (string * Tree)).

Fixpoint assoc (key : string) (items : list (string * Tree)) : option Tree :=
  match items with
  | [] => None
  | (k, v) :: items' => if decide (k = key) then Some v else assoc key items'
  end.

Definition Tree_getattr (obj : Tree) (at_ : string) : lookup_outcome Tree string :=
  match obj with
  | TObject attrs =>
      match assoc at_ attrs with
      | Some v => Found v
      | None => Missing
      end
  | _ => Missing
  end.

Definition Tree_getitem (obj : Tree) (at_ : string) : lookup_outcome Tree string :=
  match obj with
  | TDict items =>
      match assoc at_ items with
      | Some v => Found v
      | None => Missing
      end
  | _ => Failed "TypeError"
  end.

Definition Tree_objects : Objects :=
  {| Value := Tree; Exc := string;
     py_getattr := Tree_getattr; py_getitem := Tree_getitem;
     py_None := TNone |}.

(** [obj.a.b == 7], [obj.d["k"] == 8] *)
Definition example_obj : Tree :=
  TObject [("a", TObject [("b", TInt 7)]); ("d", TDict [("k", TInt 8)])].

(** A cursor over trees. *)
Definition Tree_cursor (track : list (string * Tree)) (destination : Path)
  : @Cursor Tree_objects :=
  @mkCursor Tree_objects track destination.

End path.

(** ** String predicates used to state the properties of paths *)

(** [s] begins with a character of [chars]. *)
Definition str_startswith_any (chars : list Ascii.ascii) (s : string) : bool :=
  match s with
  | EmptyString => false
  | String c _ => bool_decide (c ∈ chars)
  end.

(** Every character of [s] is in [chars]. *)
Fixpoint str_all_in (chars : list Ascii.ascii) (s : string) : bool :=
  match s with
  | EmptyString => true
  | String c s' => bool_decide (c ∈ chars) && str_all_in chars s'
  end.

(** ** PathChain (path.py)

    A [PathChain] built from paths that are not chains themselves: the
    tuple of its subpaths. *)

Module pathchain.

(** [itertools.groupby(l, key)]: the runs of neighbours with one key. *)
Fixpoint groupby {A K} `{EqDecision K} (key : A → K) (l : list A)
  : list (K * list A) :=
  match l with
  | [] => []
  | x :: l' =>
      match groupby key l' with
      | (k, g) :: groups =>
          if decide (key x = k) then (k, x :: g) :: groups
          else (key x, [x]) :: (k, g) :: groups
      | [] => [(key x, [x])]
      end
  end.

(** [PathChain.__new__]: [t( *chain.from_iterable(g))] for each run. *)
Definition PathChain_new (paths : list path.Path) : list path.Path :=
  (λ tg, path.mkPath tg.1 (concat (path.components <$> tg.2)))
    <$> groupby path.path_type paths.

(** [Path.__add__] *)
Definition add (self other : path.Path) : list path.Path :=
  PathChain_new [self; other].

(** [PathChain.follow]: each subpath is followed from where the one before
    it ended. *)
Fixpoint follow `{path.Objects} (subpaths : list path.Path) (cwd : path.Value)
  : path.generated :=
  match subpaths with
  | [] => ([], None)
  | subpath :: subpaths' =>
      match path.follow subpath cwd with
      | (ys, None) =>
          let '(zs, e) := follow subpaths' (default cwd (list.last ys)) in
          ((ys ++ zs)%list, e)
      | (ys, Some e) => (ys, Some e)
      end
  end.

End pathchain.

(** ** Running the methods *)

(** [add_node] satisfies the recursive equation of the source: the call at
    line 128 is the method itself with [dependencies=None]. *)
Lemma add_node_unfold dep dependencies :
  add_node dep dependencies =
  (add_node_register dep >>
   if truthy dependencies then
     for_each (default [] dependencies)
       (λ d, add_node d None >> relationships_add dep d)
   else ret tt).
Proof. reflexivity. Qed.

Lemma add_node_register_known dep g :
  name dep ∈ dom (name_index g) → add_node_register dep g = (Return tt, g).
Proof.
  intros Hin. unfold add_node_register, bind, get_graph; simpl.
  by rewrite decide_True.
Qed.

Lemma add_node_register_fresh dep g :
  name dep ∉ dom (name_index g) →
  add_node_register dep g =
  (Return tt,
   {| type_index :=
        <[type (dependency_type dep) :=
            {[dep]} ∪ default ∅ (type_index g !! type (dependency_type dep))]>
          (type_index g);
      name_index := <[name dep := dep]> (name_index g);
      relationships := relationships g |}).
Proof.
  intros Hin. unfold add_node_register, bind, get_graph; simpl.
  by rewrite decide_False.
Qed.

Lemma add_node_register_returns dep g : (add_node_register dep g).1 = Return tt.
Proof.
  destruct (decide (name dep ∈ dom (name_index g))) as [Hin|Hin].
  - by rewrite add_node_register_known.
  - by rewrite add_node_register_fresh.
Qed.

Lemma add_node_register_relationships dep g :
  relationships (add_node_register dep g).2 = relationships g.
Proof.
  destruct (decide (name dep ∈ dom (name_index g))) as [Hin|Hin].
  - by rewrite add_node_register_known.
  - by rewrite add_node_register_fresh.
Qed.

(** What [name_index] holds after the registration of [dep]: a name that was
    bound keeps its node, and [dep] is bound to its name only when that name
    was free. *)
Lemma add_node_register_lookup dep g key :
  name_index (add_node_register dep g).2 !! key =
  match name_index g !! key with
  | Some first => Some first
  | None => if decide (key = name dep) then Some dep else None
  end.
Proof.
  destruct (decide (name dep ∈ dom (name_index g))) as [Hin|Hin].
  - rewrite add_node_register_known by done.
    apply elem_of_dom in Hin as [first Hfirst].
    destruct (name_index g !! key) eqn:Hkey; [done|].
    case_decide; [congruence|done].
  - rewrite add_node_register_fresh by done. simpl.
    apply not_elem_of_dom in Hin.
    destruct (decide (key = name dep)) as [->|Hne].
    + by rewrite lookup_insert_eq, Hin.
    + rewrite lookup_insert_ne by done. by destruct (name_index g !! key).
Qed.

Lemma add_node_leaf_run dep g :
  add_node_leaf dep g = (Return tt, (add_node_register dep g).2).
Proof.
  unfold add_node_leaf, bind.
  pose proof (add_node_register_returns dep g) as Hret.
  destruct (add_node_register dep g) as [r g']; simpl in *. by subst r.
Qed.

Lemma add_node_loop_run dep l g :
  for_each l (λ d, add_node_leaf d >> relationships_add dep d) g =
  (Return tt, foldl (add_node_loop_step dep) g l).
Proof.
  revert g. induction l as [|d l IH]; intros g; [done|].
  simpl. unfold bind at 1. unfold bind at 1.
  rewrite add_node_leaf_run. simpl. apply IH.
Qed.

Lemma add_node_run dep dependencies g :
  add_node dep dependencies g =
  (Return tt,
   foldl (add_node_loop_step dep) (add_node_register dep g).2
     (default [] dependencies)).
Proof.
  unfold add_node, bind.
  pose proof (add_node_register_returns dep g) as Hret.
  destruct (add_node_register dep g) as [r g']; simpl in *. subst r.
  destruct dependencies as [[|d l]|]; [done| |done].
  exact (add_node_loop_run dep (d :: l) g').
Qed.

Lemma name_index_getitem_known key node g :
  name_index g !! key = Some node → name_index_getitem key g = (Return node, g).
Proof.
  intros Hkey. unfold name_index_getitem, bind, get_graph; simpl. by rewrite Hkey.
Qed.

Lemma name_index_getitem_unknown key g :
  name_index g !! key = None → name_index_getitem key g = (Raise (KeyError key), g).
Proof.
  intros Hkey. unfold name_index_getitem, bind, get_graph; simpl. by rewrite Hkey.
Qed.

Lemma add_dependencies_loop_run node l g :
  for_each l (λ d, relationships_add node d) g =
  (Return tt,
   {| type_index := type_index g;
      name_index := name_index g;
      relationships := list_to_set ((λ d, (node, d)) <$> l) ∪ relationships g |}).
Proof.
  revert g. induction l as [|d l IH]; intros g.
  - simpl. unfold ret. f_equal. destruct g; simpl. f_equal. set_solver.
  - simpl. unfold bind at 1. simpl. rewrite IH. simpl. do 2 f_equal. set_solver.
Qed.

Lemma add_dependencies_known key node l g :
  name_index g !! key = Some node →
  add_dependencies key l g =
  (Return tt,
   {| type_index := type_index g;
      name_index := name_index g;
      relationships := list_to_set ((λ d, (node, d)) <$> l) ∪ relationships g |}).
Proof.
  intros Hkey. unfold add_dependencies, bind.
  rewrite (name_index_getitem_known key node) by done.
  apply add_dependencies_loop_run.
Qed.

Lemma add_dependencies_unknown key l g :
  name_index g !! key = None →
  add_dependencies key l g = (Raise (KeyError key), g).
Proof.
  intros Hkey. unfold add_dependencies, bind.
  by rewrite name_index_getitem_unknown.
Qed.

Lemma assert_registered_known key g :
  is_Some (name_index g !! key) → assert_registered key g = (Return tt, g).
Proof.
  intros Hkey. unfold assert_registered, bind, get_graph; simpl.
  rewrite decide_True; [done|]. by apply elem_of_dom.
Qed.

Lemma assert_registered_unknown key g :
  name_index g !! key = None → assert_registered key g = (Raise AssertionError, g).
Proof.
  intros Hkey. unfold assert_registered, bind, get_graph; simpl.
  rewrite decide_False; [done|]. by apply not_elem_of_dom.
Qed.

Lemma add_relationship_known a b na nb g :
  name_index g !! a = Some na → name_index g !! b = Some nb →
  add_relationship a b g =
  (Return tt,
   {| type_index := type_index g;
      name_index := name_index g;
      relationships := {[(na, nb)]} ∪ relationships g |}).
Proof.
  intros Ha Hb. unfold add_relationship.
  unfold bind at 1. rewrite assert_registered_known by eauto.
  unfold bind at 1. rewrite assert_registered_known by eauto.
  unfold bind at 1. rewrite (name_index_getitem_known a na) by done.
  unfold bind at 1. rewrite (name_index_getitem_known b nb) by done.
  done.
Qed.

Lemma add_relationship_unknown a b g :
  name_index g !! a = None ∨ name_index g !! b = None →
  add_relationship a b g = (Raise AssertionError, g).
Proof.
  intros Hab. unfold add_relationship. unfold bind at 1.
  destruct (name_index g !! a) as [na|] eqn:Ha.
  - destruct Hab as [?|Hb]; [done|].
    rewrite assert_registered_known by eauto.
    unfold bind at 1. by rewrite assert_registered_unknown.
  - by rewrite assert_registered_unknown.
Qed.

Lemma get_dependents_known key node g :
  name_index g !! key = Some node →
  get_dependents key g =
  (Return (set_map fst (filter (λ p, p.2 = node) (relationships g))), g).
Proof.
  intros Hkey. unfold get_dependents, bind.
  by rewrite (name_index_getitem_known key node).
Qed.

Lemma get_dependents_unknown key g :
  name_index g !! key = None → get_dependents key g = (Raise (KeyError key), g).
Proof.
  intros Hkey. unfold get_dependents, bind.
  by rewrite name_index_getitem_unknown.
Qed.

Lemma get_dependencies_known key node g :
  name_index g !! key = Some node →
  get_dependencies key g =
  (Return (set_map snd (filter (λ p, p.1 = node) (relationships g))), g).
Proof.
  intros Hkey. unfold get_dependencies, bind.
  by rewrite (name_index_getitem_known key node).
Qed.

Lemma get_dependencies_unknown key g :
  name_index g !! key = None → get_dependencies key g = (Raise (KeyError key), g).
Proof.
  intros Hkey. unfold get_dependencies, bind.
  by rewrite name_index_getitem_unknown.
Qed.

(** The pairs behind the two queries. *)
Lemma elem_of_dependents (node x : Node) (edges : gset (Node * Node)) :
  x ∈ (set_map fst (filter (λ p, p.2 = node) edges) : gset Node) ↔
  (x, node) ∈ edges.
Proof.
  rewrite elem_of_map. split.
  - intros ([dt dc] & -> & Hin). apply elem_of_filter in Hin as [Hdc Hin].
    simpl in *. by subst dc.
  - intros Hin. exists (x, node). split; [done|]. by apply elem_of_filter.
Qed.

Lemma elem_of_dependencies (node y : Node) (edges : gset (Node * Node)) :
  y ∈ (set_map snd (filter (λ p, p.1 = node) edges) : gset Node) ↔
  (node, y) ∈ edges.
Proof.
  rewrite elem_of_map. split.
  - intros ([dt dc] & -> & Hin). apply elem_of_filter in Hin as [Hdt Hin].
    simpl in *. by subst dt.
  - intros Hin. exists (node, y). split; [done|]. by apply elem_of_filter.
Qed.

(** A query never changes the graph, whether it returns or raises. *)
Lemma name_index_getitem_state key g : (name_index_getitem key g).2 = g.
Proof.
  destruct (name_index g !! key) as [node|] eqn:Hkey.
  - by rewrite (name_index_getitem_known key node).
  - by rewrite name_index_getitem_unknown.
Qed.

Lemma get_dependents_state key g : (get_dependents key g).2 = g.
Proof.
  destruct (name_index g !! key) as [node|] eqn:Hkey.
  - by rewrite (get_dependents_known key node).
  - by rewrite get_dependents_unknown.
Qed.

Lemma get_dependencies_state key g : (get_dependencies key g).2 = g.
Proof.
  destruct (name_index g !! key) as [node|] eqn:Hkey.
  - by rewrite (get_dependencies_known key node).
  - by rewrite get_dependencies_unknown.
Qed.

Lemma bind_ret_state {A} (m : M A) g : (bind m (λ _, ret tt) g).2 = (m g).2.
Proof. unfold bind. by destruct (m g) as [[a|e] g']. Qed.

(** ** Index symmetry *)

Lemma elem_of_type_index_nodes g n :
  n ∈ type_index_nodes g ↔ ∃ t s, type_index g !! t = Some s ∧ n ∈ s.
Proof.
  unfold type_index_nodes. rewrite elem_of_union_list. split.
  - intros (s & Hs & Hn).
    apply list_elem_of_fmap in Hs as ([t s'] & -> & Hin).
    apply elem_of_map_to_list in Hin. eauto.
  - intros (t & s & Hts & Hn). exists s. split; [|done].
    apply list_elem_of_fmap. exists (t, s). split; [done|].
    by apply elem_of_map_to_list.
Qed.

(** Adding [dep] to the set filed under [t] adds [dep], and nothing else, to
    the union of the sets. *)
Lemma type_index_nodes_add t dep g :
  type_index_nodes (type_index_add t dep g).2 = {[dep]} ∪ type_index_nodes g.
Proof.
  apply set_eq. intros n.
  rewrite elem_of_union, elem_of_singleton, !elem_of_type_index_nodes. simpl.
  split.
  - intros (t' & s & Hts & Hn). destruct (decide (t = t')) as [<-|Hne].
    + rewrite lookup_insert_eq in Hts. injection Hts as <-.
      apply elem_of_union in Hn as [Hn|Hn].
      * left. by apply elem_of_singleton in Hn.
      * right. destruct (type_index g !! t) as [s|] eqn:Ht; simpl in Hn.
        -- eauto.
        -- by apply not_elem_of_empty in Hn.
    + rewrite lookup_insert_ne in Hts by done. eauto.
  - intros [->|(t' & s & Hts & Hn)].
    + exists t, ({[dep]} ∪ default ∅ (type_index g !! t)).
      rewrite lookup_insert_eq. split; [done|]. apply elem_of_union_l.
      by apply elem_of_singleton.
    + destruct (decide (t = t')) as [<-|Hne].
      * exists t, ({[dep]} ∪ default ∅ (type_index g !! t)).
        rewrite lookup_insert_eq, Hts. split; [done|]. by apply elem_of_union_r.
      * exists t', s. by rewrite lookup_insert_ne.
Qed.

Lemma index_symmetry_init : index_symmetry DepGraph_init.
Proof.
  unfold index_symmetry, type_index_nodes, name_index_nodes. simpl.
  by rewrite map_to_list_empty, map_img_empty_L.
Qed.

Lemma index_symmetry_same_indexes g g' :
  type_index g' = type_index g → name_index g' = name_index g →
  index_symmetry g → index_symmetry g'.
Proof.
  unfold index_symmetry, type_index_nodes, name_index_nodes.
  by intros -> ->.
Qed.

Lemma index_symmetry_register dep g :
  index_symmetry g → index_symmetry (add_node_register dep g).2.
Proof.
  intros Hsym. destruct (decide (name dep ∈ dom (name_index g))) as [Hin|Hin].
  - by rewrite add_node_register_known.
  - rewrite add_node_register_fresh by done. unfold index_symmetry.
    transitivity ({[dep]} ∪ type_index_nodes g).
    { exact (type_index_nodes_add (type (dependency_type dep)) dep g). }
    unfold name_index_nodes. simpl.
    rewrite map_img_insert_notin_L by by apply not_elem_of_dom.
    f_equal. exact Hsym.
Qed.

Lemma index_symmetry_add_node dep dependencies g :
  index_symmetry g → index_symmetry (add_node dep dependencies g).2.
Proof.
  intros Hsym. rewrite add_node_run. simpl.
  apply index_symmetry_register with (dep := dep) in Hsym.
  revert Hsym. generalize (add_node_register dep g).2 as g0.
  induction (default [] dependencies) as [|d l IH]; intros g0 Hsym; [done|].
  simpl. apply IH. unfold add_node_loop_step.
  eapply index_symmetry_same_indexes;
    [| |apply (index_symmetry_register d), Hsym]; done.
Qed.

Lemma index_symmetry_run_op op g :
  index_symmetry g → index_symmetry (run_op op g).2.
Proof.
  intros Hsym. destruct op as [dep ds|key ds|a b|key|key|key]; simpl.
  - by apply index_symmetry_add_node.
  - destruct (name_index g !! key) as [node|] eqn:Hkey.
    + rewrite (add_dependencies_known key node) by done.
      by eapply index_symmetry_same_indexes.
    + by rewrite add_dependencies_unknown.
  - destruct (name_index g !! a) as [na|] eqn:Ha;
      [destruct (name_index g !! b) as [nb|] eqn:Hb|].
    + rewrite (add_relationship_known a b na nb) by done.
      by eapply index_symmetry_same_indexes.
    + rewrite add_relationship_unknown by auto. done.
    + rewrite add_relationship_unknown by auto. done.
  - rewrite bind_ret_state. unfold get_by_name.
    by rewrite name_index_getitem_state.
  - by rewrite bind_ret_state, get_dependents_state.
  - by rewrite bind_ret_state, get_dependencies_state.
Qed.

(** C3: in every graph reached from a new [DepGraph] by public calls, the
    union of the node sets of [type_index] is the set of values of
    [name_index]. *)
Theorem index_symmetry_reachable g :
  reachable g → type_index_nodes g = name_index_nodes g.
Proof.
  induction 1 as [|g op Hreach IH].
  - apply index_symmetry_init.
  - by apply index_symmetry_run_op.
Qed.

Lemma reachable_run_ops_from ops g : reachable g → reachable (run_ops ops g).
Proof.
  revert g. induction ops as [|op ops IH]; intros g Hg; [done|].
  simpl. apply IH. by apply reachable_step.
Qed.

Lemma reachable_run_ops g :
  reachable g ↔ ∃ ops, g = run_ops ops DepGraph_init.
Proof.
  split.
  - induction 1 as [|g op Hreach [ops ->]].
    + by exists [].
    + exists ((ops ++ [op])%list). unfold run_ops. by rewrite foldl_snoc.
  - intros [ops ->]. apply reachable_run_ops_from, reachable_init.
Qed.

(** C3 on a graph built by one [add_node] call with a dependency. *)
Lemma index_symmetry_reachable_witness :
  reachable Examples.graph_ab ∧
  type_index_nodes Examples.graph_ab = name_index_nodes Examples.graph_ab.
Proof.
  assert (reachable Examples.graph_ab) as Hreach.
  { exact (reachable_step DepGraph_init
             (AddNode Examples.node_a (Some [Examples.node_b])) reachable_init). }
  split; [exact Hreach|].
  exact (index_symmetry_reachable Examples.graph_ab Hreach).
Defined.

(** ** Idempotent registration *)

(** C2: when [n.name] is already a key of [name_index], [add_node(n)] with
    no dependencies returns, leaves [name_index] and [type_index] as they
    were, and [name_index[n.name]] is still the node registered first. *)
Theorem add_node_idempotent g n dependencies first :
  name_index g !! name n = Some first →
  truthy dependencies = false →
  (add_node n dependencies g).1 = Return tt ∧
  name_index (add_node n dependencies g).2 = name_index g ∧
  type_index (add_node n dependencies g).2 = type_index g ∧
  name_index (add_node n dependencies g).2 !! name n = Some first.
Proof.
  intros Hfirst Hfalse.
  assert (add_node n dependencies g = (Return tt, g)) as ->; [|done].
  rewrite add_node_run.
  rewrite add_node_register_known by (apply elem_of_dom; eauto).
  by destruct dependencies as [[|d l]|].
Qed.

Lemma add_node_idempotent_witness :
  (add_node Examples.node_a' None Examples.graph_a).1 = Return tt ∧
  name_index (add_node Examples.node_a' None Examples.graph_a).2
    = name_index Examples.graph_a ∧
  type_index (add_node Examples.node_a' None Examples.graph_a).2
    = type_index Examples.graph_a ∧
  name_index (add_node Examples.node_a' None Examples.graph_a).2
    !! name Examples.node_a' = Some Examples.node_a.
Proof.
  apply (add_node_idempotent Examples.graph_a Examples.node_a' None Examples.node_a).
  - vm_compute. reflexivity.
  - reflexivity.
Defined.

(** ** Unknown names *)

(** C6: for a name that is not in [name_index], [get_by_name] raises
    [KeyError], and [add_dependencies] raises [KeyError] and adds no edge;
    [add_relationship] raises [AssertionError] when one of its names is
    absent, and when both are present it adds the one edge
    [(name_index[a], name_index[b])] and changes nothing else. *)
Theorem unknown_name_failures g key dependencies a b :
  (name_index g !! key = None →
   get_by_name key g = (Raise (KeyError key), g) ∧
   add_dependencies key dependencies g = (Raise (KeyError key), g) ∧
   relationships (add_dependencies key dependencies g).2 = relationships g) ∧
  (name_index g !! a = None ∨ name_index g !! b = None →
   add_relationship a b g = (Raise AssertionError, g)) ∧
  (∀ na nb,
     name_index g !! a = Some na → name_index g !! b = Some nb →
     (add_relationship a b g).1 = Return tt ∧
     relationships (add_relationship a b g).2 = {[(na, nb)]} ∪ relationships g ∧
     name_index (add_relationship a b g).2 = name_index g ∧
     type_index (add_relationship a b g).2 = type_index g).
Proof.
  split; [|split].
  - intros Hkey. rewrite add_dependencies_unknown by done.
    split; [|done]. by apply name_index_getitem_unknown.
  - apply add_relationship_unknown.
  - intros na nb Ha Hb. by rewrite (add_relationship_known a b na nb).
Qed.

Lemma unknown_name_failures_witness :
  (get_by_name "nonexistent" Examples.graph_ab
     = (Raise (KeyError "nonexistent"), Examples.graph_ab) ∧
   add_dependencies "nonexistent" [Examples.node_a] Examples.graph_ab
     = (Raise (KeyError "nonexistent"), Examples.graph_ab)) ∧
  add_relationship "nonexistent" "a" Examples.graph_ab
     = (Raise AssertionError, Examples.graph_ab) ∧
  relationships (add_relationship "b" "a" Examples.graph_ab).2
     = {[(Examples.node_b, Examples.node_a)]} ∪ relationships Examples.graph_ab.
Proof.
  assert (name_index Examples.graph_ab !! "nonexistent" = None) as Hnone
    by (vm_compute; reflexivity).
  assert (name_index Examples.graph_ab !! "a" = Some Examples.node_a) as Ha
    by (vm_compute; reflexivity).
  assert (name_index Examples.graph_ab !! "b" = Some Examples.node_b) as Hb
    by (vm_compute; reflexivity).
  split; [|split].
  - destruct (unknown_name_failures Examples.graph_ab "nonexistent"
                [Examples.node_a] "nonexistent" "a") as [Hk _].
    destruct (Hk Hnone) as (Hget & Hadd & _). exact (conj Hget Hadd).
  - destruct (unknown_name_failures Examples.graph_ab "nonexistent"
                [Examples.node_a] "nonexistent" "a") as (_ & Hrel & _).
    exact (Hrel (or_introl Hnone)).
  - destruct (unknown_name_failures Examples.graph_ab "nonexistent"
                [Examples.node_a] "b" "a") as (_ & _ & Hrel).
    destruct (Hrel Examples.node_b Examples.node_a Hb Ha) as (_ & Hedges & _).
    exact Hedges.
Defined.

(** C10: for a name that is not in [name_index], [get_dependents] and
    [get_dependencies] raise the [KeyError] that [get_by_name] raises, and
    do not return an empty set; and neither query changes the graph, for
    any name. *)
Theorem unknown_name_queries g key :
  (name_index g !! key = None →
   get_by_name key g = (Raise (KeyError key), g) ∧
   get_dependents key g = (Raise (KeyError key), g) ∧
   get_dependencies key g = (Raise (KeyError key), g) ∧
   (get_dependents key g).1 ≠ Return ∅ ∧
   (get_dependencies key g).1 ≠ Return ∅) ∧
  (get_dependents key g).2 = g ∧
  (get_dependencies key g).2 = g.
Proof.
  split; [|split].
  - intros Hkey.
    rewrite get_dependents_unknown, get_dependencies_unknown by done.
    split; [by apply name_index_getitem_unknown|]. done.
  - apply get_dependents_state.
  - apply get_dependencies_state.
Qed.

Lemma unknown_name_queries_witness :
  get_by_name "nonexistent" Examples.graph_ab
    = (Raise (KeyError "nonexistent"), Examples.graph_ab) ∧
  get_dependents "nonexistent" Examples.graph_ab
    = (Raise (KeyError "nonexistent"), Examples.graph_ab) ∧
  get_dependencies "nonexistent" Examples.graph_ab
    = (Raise (KeyError "nonexistent"), Examples.graph_ab).
Proof.
  destruct (unknown_name_queries Examples.graph_ab "nonexistent") as [Hk _].
  assert (name_index Examples.graph_ab !! "nonexistent" = None) as Hnone
    by (vm_compute; reflexivity).
  destruct (Hk Hnone) as (Hget & Hdts & Hdcs & _).
  exact (conj Hget (conj Hdts Hdcs)).
Defined.

(** ** Query symmetry *)

(** C5: for names [x] and [y] registered in [name_index], both queries
    return, and the node of [y] is in [get_dependencies(x)] exactly when the
    node of [x] is in [get_dependents(y)].  It holds in every graph, so in
    every reachable one. *)
Theorem query_symmetry g x y nx ny :
  name_index g !! x = Some nx →
  name_index g !! y = Some ny →
  ∃ dependencies dependents,
    get_dependencies x g = (Return dependencies, g) ∧
    get_dependents y g = (Return dependents, g) ∧
    (ny ∈ dependencies ↔ nx ∈ dependents).
Proof.
  intros Hx Hy. eexists _, _.
  split; [by apply get_dependencies_known|].
  split; [by apply get_dependents_known|].
  by rewrite elem_of_dependencies, elem_of_dependents.
Qed.

Lemma query_symmetry_witness :
  ∃ dependencies dependents,
    get_dependencies "a" Examples.graph_ab = (Return dependencies, Examples.graph_ab) ∧
    get_dependents "b" Examples.graph_ab = (Return dependents, Examples.graph_ab) ∧
    (Examples.node_b ∈ dependencies ↔ Examples.node_a ∈ dependents).
Proof.
  apply (query_symmetry Examples.graph_ab "a" "b" Examples.node_a Examples.node_b).
  - vm_compute. reflexivity.
  - vm_compute. reflexivity.
Defined.

(** ** Extraction *)

(** The comprehension keeps the keys and maps each value. *)
Lemma dict_comprehension_fmap {A B} (f : A → B) (parameters : gmap string A) :
  dict_comprehension f parameters = f <$> parameters.
Proof.
  unfold dict_comprehension.
  change (λ kp : string * A, (kp.1, f kp.2)) with (prod_map (@id string) f).
  by rewrite list_to_map_fmap, list_to_map_to_list.
Qed.

Lemma extract_dependencies_declared dependent deps :
  dunder_dependencies dependent = Some deps →
  extract_dependencies dependent = Return deps.
Proof. intros Hdeps. unfold extract_dependencies. by rewrite Hdeps. Qed.

Lemma extract_dependencies_inferred dependent parameters :
  dunder_dependencies dependent = None →
  signature_parameters dependent = Some parameters →
  extract_dependencies dependent = Return (parameter_dependency <$> parameters).
Proof.
  intros Hdeps Hsig. unfold extract_dependencies, inspect_signature.
  by rewrite Hdeps, Hsig, dict_comprehension_fmap.
Qed.

(** C7: a callable that carries [__dependencies__] gets that mapping back,
    unchanged, whatever its signature is, also when [inspect.signature]
    would raise on it. *)
Theorem extract_dependencies_explicit dependent deps :
  dunder_dependencies dependent = Some deps →
  extract_dependencies dependent = Return deps ∧
  ∀ parameters,
    extract_dependencies (mkCallable (Some deps) parameters) = Return deps.
Proof.
  intros Hdeps. split; [by apply extract_dependencies_declared|].
  intros parameters. by apply extract_dependencies_declared.
Qed.

Lemma extract_dependencies_explicit_witness :
  extract_dependencies Examples.declared
    = Return {[ "dep1" := mkDependency Examples.make_b Examples.int ]}.
Proof.
  apply (extract_dependencies_explicit Examples.declared
           {[ "dep1" := mkDependency Examples.make_b Examples.int ]}).
  reflexivity.
Defined.

(** C8, as amended: for a callable without [__dependencies__] whose
    signature [inspect.signature] gives, the result has one entry
    per formal parameter, under the parameter's name: its type is the
    annotation, its factory is [p.default.factory] when the default is a
    [Dependency] and the annotation otherwise.  For [a: int] and
    [b: int = Dependency(factory=make_b, type=int)] the result is
    [{"a": Dependency(factory=int, type=int),
      "b": Dependency(factory=make_b, type=int)}]. *)
Theorem extract_dependencies_signature dependent parameters :
  dunder_dependencies dependent = None →
  signature_parameters dependent = Some parameters →
  (∃ deps,
     extract_dependencies dependent = Return deps ∧
     dom deps = dom parameters ∧
     ∀ p_name p,
       parameters !! p_name = Some p →
       ∃ d, deps !! p_name = Some d ∧
            type d = inspect.annotation p ∧
            factory d = match as_Dependency (inspect.default p) with
                        | Some default_dependency => factory default_dependency
                        | None => inspect.annotation p
                        end) ∧
  extract_dependencies Examples.f
    = Return {[ "a" := mkDependency Examples.int Examples.int;
                "b" := mkDependency Examples.make_b Examples.int ]}.
Proof.
  intros Hdeps Hsig. split.
  - exists (parameter_dependency <$> parameters).
    split; [by apply extract_dependencies_inferred|].
    split; [by rewrite dom_fmap_L|].
    intros p_name p Hp. exists (parameter_dependency p).
    by rewrite lookup_fmap, Hp.
  - rewrite (extract_dependencies_inferred Examples.f Examples.f_parameters)
      by reflexivity.
    reflexivity.
Qed.

Lemma extract_dependencies_signature_witness :
  ∃ deps,
    extract_dependencies Examples.f = Return deps ∧
    dom deps = dom Examples.f_parameters ∧
    ∀ p_name p,
      Examples.f_parameters !! p_name = Some p →
      ∃ d, deps !! p_name = Some d ∧
           type d = inspect.annotation p ∧
           factory d = match as_Dependency (inspect.default p) with
                       | Some default_dependency => factory default_dependency
                       | None => inspect.annotation p
                       end.
Proof.
  apply (extract_dependencies_signature Examples.f Examples.f_parameters).
  - reflexivity.
  - reflexivity.
Defined.

(** C8 as stated fails on a callable whose signature [inspect.signature]
    cannot give: [dict] carries no explicit mapping, and
    [extract_dependencies(dict)] raises what [inspect.signature] raises;
    it returns no mapping. *)
Lemma extract_dependencies_signature_raises :
  dunder_dependencies builtin_dict = None ∧
  extract_dependencies builtin_dict = Raise SignatureError ∧
  ¬ ∃ deps, extract_dependencies builtin_dict = Return deps.
Proof.
  split; [reflexivity|]. split; [reflexivity|].
  intros [deps Hdeps]. discriminate Hdeps.
Qed.

(** C9: a parameter without an annotation, whose default is not a
    [Dependency], does not make the extraction raise and is not skipped: its
    entry has [inspect.Parameter.empty] as its type and as its factory. *)
Theorem extract_dependencies_unannotated dependent parameters p_name p :
  dunder_dependencies dependent = None →
  signature_parameters dependent = Some parameters →
  parameters !! p_name = Some p →
  inspect.annotation p = PyEmpty →
  as_Dependency (inspect.default p) = None →
  ∃ deps,
    extract_dependencies dependent = Return deps ∧
    deps !! p_name = Some {| factory := PyEmpty; type := PyEmpty |}.
Proof.
  intros Hdeps Hsig Hp Hann Hdef.
  exists (parameter_dependency <$> parameters).
  split; [by apply extract_dependencies_inferred|].
  rewrite lookup_fmap, Hp. simpl. unfold parameter_dependency.
  by rewrite Hann, Hdef.
Qed.

Lemma extract_dependencies_unannotated_witness :
  ∃ deps,
    extract_dependencies Examples.h = Return deps ∧
    deps !! "x" = Some {| factory := PyEmpty; type := PyEmpty |}.
Proof.
  apply (extract_dependencies_unannotated Examples.h
           {[ "x" := inspect.mkParameter PyEmpty PyEmpty ]} "x"
           (inspect.mkParameter PyEmpty PyEmpty)).
  - reflexivity.
  - reflexivity.
  - vm_compute. reflexivity.
  - reflexivity.
  - reflexivity.
Defined.

(** ** Registration of a node with its dependencies *)

Lemma add_node_register_name_index d g1 g2 :
  name_index g1 = name_index g2 →
  name_index (add_node_register d g1).2 = name_index (add_node_register d g2).2.
Proof.
  intros Heq. apply map_eq. intros key.
  by rewrite !add_node_register_lookup, Heq.
Qed.

Lemma add_node_loop_name_index dep l g1 g2 :
  name_index g1 = name_index g2 →
  name_index (foldl (add_node_loop_step dep) g1 l) = name_index (register_all l g2).
Proof.
  revert g1 g2. induction l as [|d l IH]; intros g1 g2 Heq; [done|].
  simpl. apply IH. unfold add_node_loop_step. simpl.
  by apply add_node_register_name_index.
Qed.

Lemma add_node_name_index dep dependencies g :
  name_index (add_node dep dependencies g).2 =
  name_index (register_all (dep :: default [] dependencies) g).
Proof. rewrite add_node_run. simpl. by apply add_node_loop_name_index. Qed.

Lemma add_node_loop_relationships dep l g :
  relationships (foldl (add_node_loop_step dep) g l) =
  list_to_set ((λ d, (dep, d)) <$> l) ∪ relationships g.
Proof.
  revert g. induction l as [|d l IH]; intros g.
  - simpl. by rewrite union_empty_l_L.
  - simpl. rewrite IH. unfold add_node_loop_step. simpl.
    rewrite add_node_register_relationships.
    set_solver.
Qed.

Lemma add_node_relationships dep dependencies g :
  relationships (add_node dep dependencies g).2 =
  list_to_set ((λ d, (dep, d)) <$> default [] dependencies) ∪ relationships g.
Proof.
  rewrite add_node_run. simpl.
  by rewrite add_node_loop_relationships, add_node_register_relationships.
Qed.

(** A bound name keeps its node through any number of registrations. *)
Lemma register_all_lookup_mono nodes g key first :
  name_index g !! key = Some first →
  name_index (register_all nodes g) !! key = Some first.
Proof.
  revert g. induction nodes as [|d nodes IH]; intros g Hkey; [done|].
  simpl. apply IH. by rewrite add_node_register_lookup, Hkey.
Qed.

(** When no two objects compete for a name, every node of the call is
    bound to its own name afterwards. *)
Lemma register_all_agree nodes g m :
  names_agree g nodes → m ∈ nodes →
  name_index (register_all nodes g) !! name m = Some m.
Proof.
  revert g. induction nodes as [|d nodes IH]; intros g [Hold Hpair] Hm.
  - by apply elem_of_nil in Hm.
  - simpl. apply elem_of_cons in Hm as [->|Hm].
    + apply register_all_lookup_mono. rewrite add_node_register_lookup.
      destruct (name_index g !! name d) as [first|] eqn:Hd.
      * f_equal. apply (Hold d first); [apply elem_of_cons; by left|done].
      * by rewrite decide_True.
    + apply IH; [|done]. split.
      * intros m' first Hm'. rewrite add_node_register_lookup.
        destruct (name_index g !! name m') as [first'|] eqn:Hfirst.
        -- intros [= <-]. apply (Hold m' first'); [|done].
           apply elem_of_cons. by right.
        -- case_decide as Hname; [|done]. intros [= <-].
           symmetry. apply Hpair; [apply elem_of_cons; by right| |done].
           apply elem_of_cons. by left.
      * intros m1 m2 Hm1 Hm2. apply Hpair; apply elem_of_cons; by right.
Qed.

(** ** Transitive registration *)

(** C4, as amended: when any two of [n], [d1], [d2] that share a name are
    the same node object, [add_node(n, dependencies={d1, d2})] on a new
    graph registers the three nodes under their names and
    [get_dependencies(n.name)] returns exactly [{d1, d2}], in whatever
    order the set is iterated. *)
Theorem add_node_transitive_registration n d1 d2 l :
  list_to_set l = ({[d1; d2]} : gset Node) →
  (∀ m m', m ∈ [n; d1; d2] → m' ∈ [n; d1; d2] → name m = name m' → m = m') →
  transitive_registration n d1 d2 l.
Proof.
  intros Hl Hpair.
  assert (∀ m, m ∈ l ↔ m = d1 ∨ m = d2) as Hmem.
  { intros m. rewrite <-(elem_of_list_to_set (C := gset Node)), Hl.
    by rewrite elem_of_union, !elem_of_singleton. }
  assert (∀ m, m ∈ n :: l → m ∈ [n; d1; d2]) as Hsub.
  { intros m [->|Hm]%elem_of_cons; [apply elem_of_cons; by left|].
    apply Hmem in Hm as [-> | ->]; apply elem_of_cons; right;
      apply elem_of_cons; [by left|right]. apply elem_of_cons. by left. }
  assert (names_agree DepGraph_init (n :: l)) as Hagree.
  { split.
    - intros m first _. simpl. by rewrite lookup_empty.
    - intros m m' Hm Hm'. apply Hpair; by apply Hsub. }
  assert (∀ m, m ∈ n :: l →
            (get_by_name (name m) (add_node n (Some l) DepGraph_init).2).1
            = Return m) as Hget.
  { intros m Hm. unfold get_by_name.
    rewrite (name_index_getitem_known (name m) m); [done|].
    rewrite add_node_name_index. by apply register_all_agree. }
  unfold transitive_registration. simpl.
  split; [by rewrite add_node_run|].
  split; [apply Hget, elem_of_cons; by left|].
  split; [apply Hget, elem_of_cons; right; apply Hmem; by left|].
  split; [apply Hget, elem_of_cons; right; apply Hmem; by right|].
  rewrite (get_dependencies_known (name n) n).
  - simpl. f_equal. apply set_eq. intros y.
    rewrite elem_of_dependencies, add_node_relationships. simpl.
    rewrite union_empty_r_L, elem_of_list_to_set, list_elem_of_fmap.
    rewrite elem_of_union, !elem_of_singleton, <-Hmem. split.
    + by intros (d & [= ->] & Hd).
    + intros Hy. by exists y.
  - rewrite add_node_name_index. apply register_all_agree; [done|].
    apply elem_of_cons. by left.
Qed.

Lemma add_node_transitive_registration_witness :
  transitive_registration Examples.node_a Examples.node_b Examples.node_c
    [Examples.node_c; Examples.node_b].
Proof.
  apply add_node_transitive_registration.
  - apply (bool_decide_unpack _). vm_compute. exact I.
  - intros m m'. rewrite !elem_of_cons, !elem_of_nil.
    intros [->|[->|[->|[]]]] [->|[->|[->|[]]]] Hname;
      first [reflexivity | vm_compute in Hname; discriminate Hname].
Defined.

(** C4 as stated fails when a dependency carries the name of [n] and is
    another object: [get_by_name] returns [n] for that name, in both
    iteration orders of the set. *)
Lemma add_node_transitive_registration_name_clash :
  ¬ transitive_registration Examples.node_a Examples.node_a' Examples.node_b
      [Examples.node_a'; Examples.node_b] ∧
  ¬ transitive_registration Examples.node_a Examples.node_a' Examples.node_b
      [Examples.node_b; Examples.node_a'].
Proof.
  split; unfold transitive_registration; intros (_ & _ & Hget & _);
    vm_compute in Hget; discriminate Hget.
Qed.

(** ** Edges and the name index *)

Lemma no_dangling_edges_init : no_dangling_edges DepGraph_init.
Proof. intros a b Hab. simpl in Hab. by apply not_elem_of_empty in Hab. Qed.

Lemma name_index_nodes_add_node dep dependencies g x :
  x ∈ name_index_nodes g → x ∈ name_index_nodes (add_node dep dependencies g).2.
Proof.
  unfold name_index_nodes. rewrite !elem_of_map_img. intros [key Hkey].
  exists key. rewrite add_node_name_index. by apply register_all_lookup_mono.
Qed.

(** Where no two node objects compete for a name, and [add_dependencies]
    is given registered nodes, a public call keeps the edges inside the
    name index. *)
Lemma no_dangling_edges_run_op op g :
  no_dangling_edges g →
  registered_dependencies op g →
  names_agree g (op_nodes op) →
  no_dangling_edges (run_op op g).2.
Proof.
  intros Hinv Hreg Hagree.
  destruct op as [dep ds|key ds|a b|key|key|key]; simpl.
  - intros x y Hxy. rewrite add_node_relationships in Hxy.
    apply elem_of_union in Hxy as [Hxy|Hxy].
    + apply elem_of_list_to_set, list_elem_of_fmap in Hxy as (d & [= -> ->] & Hd).
      simpl in Hagree. destruct (default [] ds) as [|d0 l] eqn:Hds.
      { by apply elem_of_nil in Hd. }
      unfold name_index_nodes. rewrite !elem_of_map_img, add_node_name_index, Hds.
      split.
      * exists (name dep). apply register_all_agree; [done|].
        apply elem_of_cons. by left.
      * exists (name d). apply register_all_agree; [done|].
        apply elem_of_cons. by right.
    + destruct (Hinv x y Hxy). split; by apply name_index_nodes_add_node.
  - destruct (name_index g !! key) as [node|] eqn:Hkey.
    + rewrite (add_dependencies_known key node) by done.
      intros x y Hxy. simpl in Hxy. unfold name_index_nodes. simpl.
      apply elem_of_union in Hxy as [Hxy|Hxy]; [|by apply Hinv].
      apply elem_of_list_to_set, list_elem_of_fmap in Hxy as (d & [= -> ->] & Hd).
      split; [by apply elem_of_map_img_2 with key|].
      simpl in Hreg. rewrite list.Forall_forall in Hreg. by apply Hreg.
    + by rewrite add_dependencies_unknown.
  - destruct (name_index g !! a) as [na|] eqn:Ha;
      [destruct (name_index g !! b) as [nb|] eqn:Hb|].
    + rewrite (add_relationship_known a b na nb) by done.
      intros x y Hxy. simpl in Hxy. unfold name_index_nodes. simpl.
      apply elem_of_union in Hxy as [Hxy|Hxy]; [|by apply Hinv].
      apply elem_of_singleton in Hxy as [= -> ->].
      split; by eapply elem_of_map_img_2.
    + rewrite add_relationship_unknown by auto. done.
    + rewrite add_relationship_unknown by auto. done.
  - rewrite bind_ret_state. unfold get_by_name.
    by rewrite name_index_getitem_state.
  - by rewrite bind_ret_state, get_dependents_state.
  - by rewrite bind_ret_state, get_dependencies_state.
Qed.

(** C1 on the failing call: on a new graph, [add_node(a, {a'})], where [a']
    is a second node object with the name of [a], returns; the state is
    reached by the allowed mutations; [a'] is not registered, [name_index]
    keeps [a] under the name; and the edge [(a, a')] is stored, so [a'] is
    an end of an edge that is not a value of [name_index]. *)
Theorem add_node_name_clash_dangling_edge :
  let g := (run_op (AddNode Examples.node_a (Some [Examples.node_a']))
              DepGraph_init).2 in
  reachable_by_mutations g ∧
  name_index g !! "a" = Some Examples.node_a ∧
  (Examples.node_a, Examples.node_a') ∈ relationships g ∧
  (Examples.node_a' ∉ name_index_nodes g) ∧
  ¬ no_dangling_edges g.
Proof.
  intros g.
  assert ((Examples.node_a, Examples.node_a') ∈ relationships g) as Hedge.
  { apply (bool_decide_unpack _). vm_compute. exact I. }
  assert (Examples.node_a' ∉ name_index_nodes g) as Hout.
  { apply (bool_decide_unpack _). vm_compute. exact I. }
  split; [|split; [|split; [|split]]].
  - apply mutations_step; [apply mutations_init|reflexivity| |exact I].
    simpl. by rewrite add_node_run.
  - vm_compute. reflexivity.
  - exact Hedge.
  - exact Hout.
  - intros Hinv. apply Hout. by destruct (Hinv _ _ Hedge).
Qed.

(** ** Evaluation on small graphs *)

Example graph_ab_name_index :
  name_index Examples.graph_ab !! "a" = Some Examples.node_a ∧
  name_index Examples.graph_ab !! "b" = Some Examples.node_b ∧
  name_index Examples.graph_ab !! "c" = None.
Proof. vm_compute. done. Qed.

Example graph_ab_dependencies :
  (get_dependencies "a" Examples.graph_ab).1 = Return {[Examples.node_b]} ∧
  (get_dependents "b" Examples.graph_ab).1 = Return {[Examples.node_a]} ∧
  (get_dependents "a" Examples.graph_ab).1 = Return ∅.
Proof.
  destruct graph_ab_name_index as (Ha & Hb & _).
  rewrite (get_dependencies_known "a" Examples.node_a) by done.
  rewrite (get_dependents_known "b" Examples.node_b) by done.
  rewrite (get_dependents_known "a" Examples.node_a) by done.
  simpl. split; [|split]; f_equal;
    apply (bool_decide_unpack _); vm_compute; exact I.
Qed.

Example graph_ab_no_dangling_edges : no_dangling_edges Examples.graph_ab.
Proof. apply (bool_decide_unpack _). vm_compute. exact I. Qed.

(** Edges are a set: a second [add_relationship] with the same names
    changes nothing. *)
Lemma add_relationship_twice a b g :
  (add_relationship a b (add_relationship a b g).2).2 = (add_relationship a b g).2.
Proof.
  destruct (name_index g !! a) as [na|] eqn:Ha;
    [destruct (name_index g !! b) as [nb|] eqn:Hb|].
  - rewrite (add_relationship_known a b na nb g) by done.
    rewrite (add_relationship_known a b na nb) by done.
    simpl. f_equal. set_solver.
  - rewrite (add_relationship_unknown a b g) by auto. simpl.
    by rewrite add_relationship_unknown by auto.
  - rewrite (add_relationship_unknown a b g) by auto. simpl.
    by rewrite add_relationship_unknown by auto.
Qed.

(** ** Invariants of the indexes *)

Lemma add_node_index_invariant P dep dependencies g :
  index_only P →
  (∀ d g, P g → P (add_node_register d g).2) →
  P g → P (add_node dep dependencies g).2.
Proof.
  intros Honly Hreg HP. rewrite add_node_run. simpl.
  apply (Hreg dep) in HP. revert HP.
  generalize (add_node_register dep g).2 as g0.
  induction (default [] dependencies) as [|d l IH]; intros g0 HP; [done|].
  simpl. apply IH. unfold add_node_loop_step.
  apply (Honly (add_node_register d g0).2); [done|done|apply (Hreg d), HP].
Qed.

Lemma run_op_index_invariant P op g :
  index_only P →
  (∀ d g, P g → P (add_node_register d g).2) →
  P g → P (run_op op g).2.
Proof.
  intros Honly Hreg HP. destruct op as [dep ds|key ds|a b|key|key|key]; simpl.
  - by apply add_node_index_invariant.
  - destruct (name_index g !! key) as [node|] eqn:Hkey.
    + rewrite (add_dependencies_known key node) by done. by apply (Honly g).
    + by rewrite add_dependencies_unknown.
  - destruct (name_index g !! a) as [na|] eqn:Ha;
      [destruct (name_index g !! b) as [nb|] eqn:Hb|].
    + rewrite (add_relationship_known a b na nb) by done. by apply (Honly g).
    + rewrite add_relationship_unknown by auto. done.
    + rewrite add_relationship_unknown by auto. done.
  - rewrite bind_ret_state. unfold get_by_name.
    by rewrite name_index_getitem_state.
  - by rewrite bind_ret_state, get_dependents_state.
  - by rewrite bind_ret_state, get_dependencies_state.
Qed.

Lemma reachable_index_invariant P :
  index_only P → P DepGraph_init →
  (∀ d g, P g → P (add_node_register d g).2) →
  ∀ g, reachable g → P g.
Proof.
  intros Honly Hinit Hreg g. induction 1 as [|g op Hreach IH]; [done|].
  by apply run_op_index_invariant.
Qed.

Lemma names_keyed_register d g :
  names_keyed g → names_keyed (add_node_register d g).2.
Proof.
  intros Hkeyed key n. rewrite add_node_register_lookup.
  destruct (name_index g !! key) as [first|] eqn:Hkey.
  - intros [= <-]. by apply Hkeyed.
  - case_decide; [|done]. by intros [= <-].
Qed.

(** X1: in every graph reached by public calls, the node stored under a
    key of [name_index] has that key as its name. *)
Theorem name_index_keys_are_names g key n :
  reachable g → name_index g !! key = Some n → name n = key.
Proof.
  intros Hreach. revert key n. change (names_keyed g).
  revert g Hreach. apply reachable_index_invariant.
  - intros g g' _ Hname Hkeyed key n. rewrite Hname. apply Hkeyed.
  - intros key n. simpl. by rewrite lookup_empty.
  - apply names_keyed_register.
Qed.

Lemma reachable_graph_ab : reachable Examples.graph_ab.
Proof.
  exact (reachable_step DepGraph_init
           (AddNode Examples.node_a (Some [Examples.node_b])) reachable_init).
Qed.

Lemma name_index_keys_are_names_witness : name Examples.node_b = "b".
Proof.
  apply (name_index_keys_are_names Examples.graph_ab "b" Examples.node_b).
  - exact reachable_graph_ab.
  - vm_compute. reflexivity.
Defined.

Lemma filed_by_type_register d g :
  filed_by_type g → filed_by_type (add_node_register d g).2.
Proof.
  intros (Hfiled & Hnamed & Hnonempty).
  destruct (decide (name d ∈ dom (name_index g))) as [Hin|Hin].
  { by rewrite add_node_register_known. }
  rewrite add_node_register_fresh by done.
  apply not_elem_of_dom in Hin.
  set (t0 := type (dependency_type d)).
  split; [|split]; simpl.
  - intros t s n Hts Hn. destruct (decide (t0 = t)) as [<-|Hne].
    + rewrite lookup_insert_eq in Hts. injection Hts as <-.
      apply elem_of_union in Hn as [Hn|Hn].
      * apply elem_of_singleton in Hn as ->. by rewrite lookup_insert_eq.
      * destruct (type_index g !! t0) as [s|] eqn:Ht0; simpl in Hn;
          [|by apply not_elem_of_empty in Hn].
        destruct (Hfiled t0 s n Ht0 Hn) as [Htype Hname]. split; [done|].
        rewrite lookup_insert_ne; [done|]. intros Heq. congruence.
    + rewrite lookup_insert_ne in Hts by done.
      destruct (Hfiled t s n Hts Hn) as [Htype Hname]. split; [done|].
      rewrite lookup_insert_ne; [done|]. intros Heq. congruence.
  - intros key n Hkey. destruct (decide (name d = key)) as [<-|Hne].
    + rewrite lookup_insert_eq in Hkey. injection Hkey as <-.
      rewrite lookup_insert_eq. eexists. split; [done|].
      apply elem_of_union_l. by apply elem_of_singleton.
    + rewrite lookup_insert_ne in Hkey by done.
      destruct (Hnamed key n Hkey) as (s & Hs & Hn).
      destruct (decide (t0 = type (dependency_type n))) as [Heq|Hne'].
      * rewrite <-Heq in Hs |- *. rewrite lookup_insert_eq, Hs. simpl.
        eexists. split; [done|]. by apply elem_of_union_r.
      * rewrite lookup_insert_ne by done. eauto.
  - intros t s Hts. destruct (decide (t0 = t)) as [<-|Hne].
    + rewrite lookup_insert_eq in Hts. injection Hts as <-.
      intros Hempty. apply (not_elem_of_empty (C := gset Node) d).
      rewrite <-Hempty. apply elem_of_union_l. by apply elem_of_singleton.
    + rewrite lookup_insert_ne in Hts by done. by eapply Hnonempty.
Qed.

(** X2: in every graph reached by public calls, a node is in the set that
    [type_index] keeps for a type exactly when it is registered under its
    name and that type is the type of its dependency; no set of
    [type_index] is empty. *)
Theorem type_index_files_by_type g t n :
  reachable g →
  (n ∈ default ∅ (type_index g !! t) ↔
   name_index g !! name n = Some n ∧ type (dependency_type n) = t) ∧
  type_index g !! t ≠ Some ∅.
Proof.
  intros Hreach.
  assert (filed_by_type g) as (Hfiled & Hnamed & Hnonempty).
  { revert g Hreach. apply reachable_index_invariant.
    - intros g g' Htype Hname. unfold filed_by_type. by rewrite Htype, Hname.
    - unfold filed_by_type. simpl. setoid_rewrite lookup_empty.
      split; [|split]; intros; done.
    - apply filed_by_type_register. }
  split; [split|].
  - destruct (type_index g !! t) as [s|] eqn:Hts; simpl.
    + intros Hn. destruct (Hfiled t s n Hts Hn). done.
    + intros Hn. by apply not_elem_of_empty in Hn.
  - intros [Hname <-]. destruct (Hnamed _ _ Hname) as (s & -> & Hn). done.
  - intros Hts. by apply (Hnonempty t ∅).
Qed.

Lemma type_index_files_by_type_witness :
  (Examples.node_b ∈ default ∅ (type_index Examples.graph_ab !! Examples.int) ↔
   name_index Examples.graph_ab !! name Examples.node_b = Some Examples.node_b ∧
   type (dependency_type Examples.node_b) = Examples.int) ∧
  type_index Examples.graph_ab !! Examples.int ≠ Some ∅.
Proof.
  apply (type_index_files_by_type Examples.graph_ab Examples.int Examples.node_b).
  exact reachable_graph_ab.
Defined.

(** ** Growth and repetition *)

Lemma grows_refl g : grows g g.
Proof. split; [|split]; [done| |done]. intros t s Hts. by exists s. Qed.

Lemma grows_trans g1 g2 g3 : grows g1 g2 → grows g2 g3 → grows g1 g3.
Proof.
  intros (Hn12 & Ht12 & Hr12) (Hn23 & Ht23 & Hr23). split; [|split].
  - intros key n Hkey. by apply Hn23, Hn12.
  - intros t s Hts. destruct (Ht12 t s Hts) as (s' & Hts' & Hsub).
    destruct (Ht23 t s' Hts') as (s'' & Hts'' & Hsub').
    exists s''. split; [done|]. by transitivity s'.
  - by transitivity (relationships g2).
Qed.

Lemma grows_register d g : grows g (add_node_register d g).2.
Proof.
  destruct (decide (name d ∈ dom (name_index g))) as [Hin|Hin].
  { rewrite add_node_register_known by done. apply grows_refl. }
  rewrite add_node_register_fresh by done. apply not_elem_of_dom in Hin.
  split; [|split]; simpl; [| |done].
  - intros key n Hkey. rewrite lookup_insert_ne; [done|]. congruence.
  - intros t s Hts.
    destruct (decide (type (dependency_type d) = t)) as [<-|Hne].
    + rewrite lookup_insert_eq, Hts. simpl. eexists. split; [done|].
      apply union_subseteq_r.
    + rewrite lookup_insert_ne by done. by exists s.
Qed.

Lemma grows_relationships g g' :
  type_index g' = type_index g → name_index g' = name_index g →
  relationships g ⊆ relationships g' → grows g g'.
Proof.
  intros Htype Hname Hrel. split; [|split]; [by rewrite Hname| |done].
  rewrite Htype. intros t s Hts. by exists s.
Qed.

Lemma grows_add_node dep dependencies g : grows g (add_node dep dependencies g).2.
Proof.
  rewrite add_node_run. simpl.
  pose proof (grows_register dep g) as Hg. revert Hg.
  generalize (add_node_register dep g).2 as g0.
  induction (default [] dependencies) as [|d l IH]; intros g0 Hg; [done|].
  simpl. apply IH. apply (grows_trans _ _ _ Hg).
  apply (grows_trans _ (add_node_register d g0).2); [apply grows_register|].
  apply grows_relationships; [done|done|]. simpl. apply union_subseteq_r.
Qed.

(** X3: no public call removes anything: a bound name keeps its node,
    every set of [type_index] keeps its nodes, every edge stays. *)
Theorem run_op_grows op g : grows g (run_op op g).2.
Proof.
  destruct op as [dep ds|key ds|a b|key|key|key]; simpl.
  - apply grows_add_node.
  - destruct (name_index g !! key) as [node|] eqn:Hkey.
    + rewrite (add_dependencies_known key node) by done.
      apply grows_relationships; [done|done|]. simpl. apply union_subseteq_r.
    + rewrite add_dependencies_unknown by done. apply grows_refl.
  - destruct (name_index g !! a) as [na|] eqn:Ha;
      [destruct (name_index g !! b) as [nb|] eqn:Hb|].
    + rewrite (add_relationship_known a b na nb) by done.
      apply grows_relationships; [done|done|]. simpl. apply union_subseteq_r.
    + rewrite add_relationship_unknown by auto. apply grows_refl.
    + rewrite add_relationship_unknown by auto. apply grows_refl.
  - rewrite bind_ret_state. unfold get_by_name.
    rewrite name_index_getitem_state. apply grows_refl.
  - rewrite bind_ret_state, get_dependents_state. apply grows_refl.
  - rewrite bind_ret_state, get_dependencies_state. apply grows_refl.
Qed.

Lemma relationships_add_absorbed a b g :
  (a, b) ∈ relationships g → relationships_add a b g = (Return tt, g).
Proof.
  intros Hab. unfold relationships_add. f_equal. destruct g as [ti ni rel].
  simpl in *. f_equal. apply set_eq. intros p.
  rewrite elem_of_union, elem_of_singleton. split; [|by right].
  by intros [->|?].
Qed.

Lemma add_node_loop_absorbed dep l g :
  (∀ d, d ∈ l → name d ∈ dom (name_index g) ∧ (dep, d) ∈ relationships g) →
  foldl (add_node_loop_step dep) g l = g.
Proof.
  induction l as [|d l IH]; intros Hl; [done|].
  simpl. destruct (Hl d) as [Hname Hedge]; [apply elem_of_cons; by left|].
  assert (add_node_loop_step dep g d = g) as ->.
  { unfold add_node_loop_step. rewrite add_node_register_known by done.
    cbn [snd]. by rewrite relationships_add_absorbed. }
  apply IH. intros d' Hd'. apply Hl, elem_of_cons. by right.
Qed.

Lemma register_all_bound nodes g m :
  m ∈ nodes → is_Some (name_index (register_all nodes g) !! name m).
Proof.
  revert g. induction nodes as [|d nodes IH]; intros g Hm.
  - by apply elem_of_nil in Hm.
  - simpl. apply elem_of_cons in Hm as [->|Hm]; [|by apply IH].
    assert (is_Some (name_index (add_node_register d g).2 !! name d))
      as [first Hfirst].
    { rewrite add_node_register_lookup.
      destruct (name_index g !! name d); [eauto|]. rewrite decide_True; eauto. }
    exists first. by apply register_all_lookup_mono.
Qed.

Lemma add_node_absorbed dep dependencies g :
  add_node dep dependencies (add_node dep dependencies g).2
  = add_node dep dependencies g.
Proof.
  rewrite (add_node_run dep dependencies g). simpl.
  set (g1 := foldl _ _ _).
  assert (g1 = (add_node dep dependencies g).2) as Hg1
    by by rewrite add_node_run.
  assert (∀ m, m ∈ dep :: default [] dependencies →
               name m ∈ dom (name_index g1)) as Hbound.
  { intros m Hm. rewrite Hg1, add_node_name_index.
    by apply elem_of_dom, register_all_bound. }
  rewrite add_node_run.
  rewrite add_node_register_known by (apply Hbound, elem_of_cons; by left).
  simpl. f_equal. apply add_node_loop_absorbed. intros d Hd. split.
  - apply Hbound, elem_of_cons. by right.
  - rewrite Hg1, add_node_relationships. apply elem_of_union_l.
    apply elem_of_list_to_set, list_elem_of_fmap. by exists d.
Qed.

(** X4: every public call is idempotent: made a second time with the same
    arguments, it has the outcome of the first and leaves the graph as the
    first call left it. *)
Theorem run_op_idempotent op g :
  run_op op (run_op op g).2 = run_op op g.
Proof.
  destruct op as [dep ds|key ds|a b|key|key|key]; simpl.
  - apply add_node_absorbed.
  - destruct (name_index g !! key) as [node|] eqn:Hkey.
    + rewrite (add_dependencies_known key node ds g) by done.
      rewrite (add_dependencies_known key node) by done.
      simpl. do 2 f_equal. set_solver.
    + rewrite (add_dependencies_unknown key ds g) by done. cbn [snd].
      by rewrite add_dependencies_unknown.
  - destruct (name_index g !! a) as [na|] eqn:Ha;
      [destruct (name_index g !! b) as [nb|] eqn:Hb|].
    + rewrite (add_relationship_known a b na nb g) by done.
      rewrite (add_relationship_known a b na nb) by done.
      simpl. do 2 f_equal. set_solver.
    + rewrite (add_relationship_unknown a b g) by auto. simpl.
      by rewrite add_relationship_unknown by auto.
    + rewrite (add_relationship_unknown a b g) by auto. simpl.
      by rewrite add_relationship_unknown by auto.
  - rewrite bind_ret_state. unfold get_by_name.
    by rewrite name_index_getitem_state.
  - by rewrite bind_ret_state, get_dependents_state.
  - by rewrite bind_ret_state, get_dependencies_state.
Qed.

(** ** Queries after a mutation *)

(** X5: for a registered name, [add_dependencies] returns, leaves both
    indexes as they were (it registers none of the given nodes), and
    afterwards [get_dependencies] of that name returns the given nodes
    together with the dependencies the node had. *)
Theorem add_dependencies_then_get_dependencies g key node dependencies :
  name_index g !! key = Some node →
  (add_dependencies key dependencies g).1 = Return tt ∧
  type_index (add_dependencies key dependencies g).2 = type_index g ∧
  name_index (add_dependencies key dependencies g).2 = name_index g ∧
  ∃ result,
    (get_dependencies key (add_dependencies key dependencies g).2).1
      = Return result ∧
    ∀ y, y ∈ result ↔ y ∈ dependencies ∨ (node, y) ∈ relationships g.
Proof.
  intros Hkey. rewrite (add_dependencies_known key node) by done. simpl.
  split; [done|]. split; [done|]. split; [done|].
  rewrite (get_dependencies_known key node) by done. simpl.
  eexists. split; [done|]. intros y.
  rewrite elem_of_dependencies, elem_of_union, elem_of_list_to_set,
    list_elem_of_fmap.
  split.
  - intros [(d & [= ->] & Hd)|Hy]; auto.
  - intros [Hy|Hy]; [left; by exists y|by right].
Qed.

Lemma add_dependencies_then_get_dependencies_witness :
  ∃ result,
    (get_dependencies "b"
       (add_dependencies "b" [Examples.node_c] Examples.graph_ab).2).1
      = Return result ∧
    ∀ y, y ∈ result ↔
         y ∈ [Examples.node_c] ∨
         (Examples.node_b, y) ∈ relationships Examples.graph_ab.
Proof.
  apply (add_dependencies_then_get_dependencies
           Examples.graph_ab "b" Examples.node_b [Examples.node_c]).
  vm_compute. reflexivity.
Defined.

Lemma add_node_lookup_own_name n dependencies g :
  name_index g !! name n = None ∨ name_index g !! name n = Some n →
  name_index (add_node n dependencies g).2 !! name n = Some n.
Proof.
  intros Hn. rewrite add_node_name_index. simpl.
  apply register_all_lookup_mono. rewrite add_node_register_lookup.
  destruct Hn as [->| ->]; [by rewrite decide_True|done].
Qed.

(** X6: when the name of [n] is free, or bound to [n] itself, then after
    [add_node(n, dependencies)] the query [get_dependencies(n.name)]
    returns the given dependencies together with those [n] had before. *)
Theorem add_node_then_get_dependencies g n dependencies :
  name_index g !! name n = None ∨ name_index g !! name n = Some n →
  ∃ result,
    (get_dependencies (name n) (add_node n dependencies g).2).1 = Return result ∧
    ∀ y, y ∈ result ↔
         y ∈ default [] dependencies ∨ (n, y) ∈ relationships g.
Proof.
  intros Hn.
  rewrite (get_dependencies_known (name n) n)
    by by apply add_node_lookup_own_name.
  simpl. eexists. split; [done|]. intros y.
  rewrite elem_of_dependencies, add_node_relationships, elem_of_union,
    elem_of_list_to_set, list_elem_of_fmap.
  split.
  - intros [(d & [= ->] & Hd)|Hy]; auto.
  - intros [Hy|Hy]; [left; by exists y|by right].
Qed.

Lemma add_node_then_get_dependencies_witness :
  ∃ result,
    (get_dependencies (name Examples.node_a)
       (add_node Examples.node_a (Some [Examples.node_c]) Examples.graph_ab).2).1
      = Return result ∧
    ∀ y, y ∈ result ↔
         y ∈ default [] (Some [Examples.node_c]) ∨
         (Examples.node_a, y) ∈ relationships Examples.graph_ab.
Proof.
  apply (add_node_then_get_dependencies
           Examples.graph_ab Examples.node_a (Some [Examples.node_c])).
  right. vm_compute. reflexivity.
Defined.

(** X7: after [add_node(n, dependencies)], on any graph, [get_by_name]
    returns a node for the name of [n] and of every given dependency; where
    no two node objects compete for a name, it returns that very node. *)
Theorem add_node_then_get_by_name g n dependencies m :
  m ∈ n :: default [] dependencies →
  (∃ first,
     (get_by_name (name m) (add_node n dependencies g).2).1 = Return first) ∧
  (names_agree g (n :: default [] dependencies) →
   (get_by_name (name m) (add_node n dependencies g).2).1 = Return m).
Proof.
  intros Hm. unfold get_by_name. split.
  - destruct (register_all_bound (n :: default [] dependencies) g m Hm)
      as [first Hfirst].
    exists first. rewrite (name_index_getitem_known (name m) first); [done|].
    by rewrite add_node_name_index.
  - intros Hagree. rewrite (name_index_getitem_known (name m) m); [done|].
    rewrite add_node_name_index. by apply register_all_agree.
Qed.

Lemma add_node_then_get_by_name_witness :
  ∃ first,
    (get_by_name (name Examples.node_a')
       (add_node Examples.node_c (Some [Examples.node_a']) Examples.graph_ab).2).1
    = Return first.
Proof.
  apply (add_node_then_get_by_name Examples.graph_ab Examples.node_c
           (Some [Examples.node_a']) Examples.node_a').
  apply elem_of_cons. right. apply elem_of_cons. by left.
Defined.

(** ** Edges stay inside the name index without name clashes *)

(** X8: in every graph reached by public calls in which no two node
    objects compete for a name, and in which [add_dependencies] is given
    registered nodes, both ends of every edge are values of [name_index]. *)
Theorem no_dangling_edges_without_clash g :
  reachable_without_clash g → no_dangling_edges g.
Proof.
  induction 1 as [|g op Hreach IH Hreg Hagree].
  - apply no_dangling_edges_init.
  - by apply no_dangling_edges_run_op.
Qed.

Lemma no_dangling_edges_without_clash_witness :
  no_dangling_edges Examples.graph_ab.
Proof.
  apply no_dangling_edges_without_clash.
  apply (without_clash_step DepGraph_init
           (AddNode Examples.node_a (Some [Examples.node_b]))).
  - apply without_clash_init.
  - exact I.
  - split.
    + intros m first _. simpl. by rewrite lookup_empty.
    + intros m m'. simpl. rewrite !elem_of_cons, !elem_of_nil.
      intros [->|[->|[]]] [->|[->|[]]] Hname;
        first [reflexivity | vm_compute in Hname; discriminate Hname].
Defined.

(** ** [first] and [last] *)

Lemma deque_maxlen_1_last {A} (it : list A) :
  path.deque_maxlen_1 it = match list.last it with Some x => [x] | None => [] end.
Proof.
  unfold path.deque_maxlen_1.
  induction it as [|x it IH] using rev_ind; [done|].
  by rewrite foldl_snoc, last_snoc.
Qed.



(** ** Construction of records *)

Lemma setattr_all_known_slots slots self items :
  (∀ k v, (k, v) ∈ items → k ∈ slots) →
  record.setattr_all slots self items =
  record.Initialised (foldl (λ m kv, <[kv.1 := kv.2]> m) self items).
Proof.
  revert self. induction items as [|[k v] items IH]; intros self Hitems; [done|].
  simpl. unfold record.setattr.
  rewrite decide_True by (apply (Hitems k v), elem_of_cons; by left).
  apply IH. intros k' v' Hin. apply (Hitems k' v'), elem_of_cons. by right.
Qed.

Lemma foldl_insert_lookup_other (self : gmap string PyObj) items k :
  k ∉ items.*1 →
  foldl (λ m kv, <[kv.1 := kv.2]> m) self items !! k = self !! k.
Proof.
  revert self. induction items as [|[k' v'] items IH]; intros self Hk; [done|].
  simpl in *. apply not_elem_of_cons in Hk as [Hne Hk].
  rewrite IH by done. by rewrite lookup_insert_ne.
Qed.

Lemma foldl_insert_lookup (self : gmap string PyObj) items k v :
  NoDup items.*1 → (k, v) ∈ items →
  foldl (λ m kv, <[kv.1 := kv.2]> m) self items !! k = Some v.
Proof.
  revert self. induction items as [|[k' v'] items IH]; intros self Hnodup Hin.
  - by apply elem_of_nil in Hin.
  - simpl in *. apply list.NoDup_cons in Hnodup as [Hfresh Hnodup].
    apply elem_of_cons in Hin as [[= <- <-]|Hin].
    + rewrite foldl_insert_lookup_other by done. by rewrite lookup_insert_eq.
    + by apply IH.
Qed.

Lemma zip_args_keys args slots :
  (record.zip_args args slots).*1 = take (length args) slots.
Proof.
  revert slots. induction args as [|a args IH]; intros [|k slots]; simpl;
    try done. by rewrite IH.
Qed.

Lemma zip_args_lookup args slots i k a :
  slots !! i = Some k → args !! i = Some a → (k, a) ∈ record.zip_args args slots.
Proof.
  revert slots i. induction args as [|a' args IH]; intros [|k' slots] [|i];
    simpl; try done.
  - intros [= ->] [= ->]. apply elem_of_cons. by left.
  - intros Hk Ha. apply elem_of_cons. right. by eapply IH.
Qed.

Lemma zip_args_slots args slots k a :
  (k, a) ∈ record.zip_args args slots → k ∈ slots.
Proof.
  intros Hin. apply (list_elem_of_fmap_2 fst) in Hin. simpl in Hin.
  rewrite zip_args_keys in Hin. by apply subseteq_take in Hin.
Qed.

(** X11: when the slots are distinct and every keyword is a slot,
    [record_init] returns; a keyword argument sets its slot, also over a
    positional argument for the same slot; another slot gets the positional
    argument at its index, or stays unset when there is none; positional
    arguments beyond the slots are dropped, no other attribute is set. *)
Theorem record_init_fields slots args kwargs :
  NoDup slots → NoDup kwargs.*1 →
  (∀ k v, (k, v) ∈ kwargs → k ∈ slots) →
  ∃ attrs,
    record.record_init slots ∅ args kwargs = record.Initialised attrs ∧
    (∀ k v, (k, v) ∈ kwargs → attrs !! k = Some v) ∧
    (∀ i k, slots !! i = Some k → k ∉ kwargs.*1 → attrs !! k = args !! i) ∧
    (∀ k, k ∉ slots → attrs !! k = None).
Proof.
  intros Hslots Hkwargs Hknown. unfold record.record_init.
  rewrite setattr_all_known_slots by apply zip_args_slots.
  rewrite setattr_all_known_slots by done.
  eexists. split; [done|]. split; [|split].
  - intros k v Hin. by apply foldl_insert_lookup.
  - intros i k Hk Hfree. rewrite foldl_insert_lookup_other by done.
    destruct (args !! i) as [a|] eqn:Ha.
    + apply foldl_insert_lookup; [|by eapply zip_args_lookup].
      rewrite zip_args_keys. apply (sublist_NoDup _ slots); [done|apply sublist_take].
    + rewrite foldl_insert_lookup_other; [by rewrite lookup_empty|].
      rewrite zip_args_keys. intros Hin.
      apply list_elem_of_lookup in Hin as [j Hj].
      apply lookup_take_Some in Hj as [Hj Hlt].
      assert (i = j) as -> by by apply (list.NoDup_lookup slots i j k).
      apply lookup_ge_None in Ha. lia.
  - intros k Hk. rewrite !foldl_insert_lookup_other; [by rewrite lookup_empty| |].
    + rewrite zip_args_keys. intros Hin. by apply subseteq_take in Hin.
    + intros Hin. apply list_elem_of_fmap in Hin as ([k' v] & -> & Hin).
      by apply Hk, (Hknown k' v).
Qed.

Lemma record_init_fields_witness :
  ∃ attrs,
    record.record_init record.Dependency_slots ∅
      [Examples.make_b; Examples.int; PyNone] [("factory", Examples.int)]
    = record.Initialised attrs ∧
    (∀ k v, (k, v) ∈ [("factory", Examples.int)] → attrs !! k = Some v) ∧
    (∀ i k, record.Dependency_slots !! i = Some k →
            k ∉ [("factory", Examples.int)].*1 →
            attrs !! k = [Examples.make_b; Examples.int; PyNone] !! i) ∧
    (∀ k, k ∉ record.Dependency_slots → attrs !! k = None).
Proof.
  apply record_init_fields.
  - apply (bool_decide_unpack _). vm_compute. exact I.
  - apply (bool_decide_unpack _). vm_compute. exact I.
  - intros k v Hin. apply list_elem_of_singleton in Hin. injection Hin as -> _.
    apply (bool_decide_unpack _). vm_compute. exact I.
Defined.



(** X13: the call [Dependency(type=t, factory=f)] of the extraction and the
    positional call [Dependency(f, t)] both return, with the same two
    fields: those of the record the graph and the extraction work with. *)
Theorem Dependency_construction f t :
  record.record_init record.Dependency_slots ∅ [] [("type", t); ("factory", f)]
    = record.Initialised (record.Dependency_attrs (mkDependency f t)) ∧
  record.record_init record.Dependency_slots ∅ [f; t] []
    = record.Initialised (record.Dependency_attrs (mkDependency f t)).
Proof. split; reflexivity. Qed.

(** ** Strings of paths *)

Lemma append_String c s t : String c s +:+ t = String c (s +:+ t).
Proof. reflexivity. Qed.

Lemma append_empty t : EmptyString +:+ t = t.
Proof. reflexivity. Qed.

Lemma str_split_nonempty sep s : path.str_split sep s ≠ [].
Proof.
  destruct s as [|c s]; simpl; [done|].
  case_decide; [done|]. by destruct (path.str_split sep s).
Qed.

Lemma str_join_cons sep piece piece' pieces :
  path.str_join sep (piece :: piece' :: pieces)
  = piece +:+ sep +:+ path.str_join sep (piece' :: pieces).
Proof. reflexivity. Qed.

Lemma str_join_split sep s :
  path.str_join (String sep EmptyString) (path.str_split sep s) = s.
Proof.
  induction s as [|c s IH]; [done|].
  simpl. pose proof (str_split_nonempty sep s) as Hne.
  destruct (path.str_split sep s) as [|piece pieces]; [done|].
  case_decide as Hc.
  - subst c. rewrite str_join_cons, IH. reflexivity.
  - destruct pieces as [|piece' pieces].
    + simpl in *. by rewrite IH.
    + rewrite str_join_cons in *. by rewrite append_String, IH.
Qed.

Lemma str_split_no_sep sep s :
  path.str_contains sep s = false → path.str_split sep s = [s].
Proof.
  induction s as [|c s IH]; [done|]. simpl.
  intros [Hc Hs]%orb_false_elim. apply bool_decide_eq_false in Hc.
  rewrite decide_False by done. by rewrite IH.
Qed.

Lemma str_split_append sep piece rest :
  path.str_contains sep piece = false →
  path.str_split sep (piece +:+ String sep rest)
  = piece :: path.str_split sep rest.
Proof.
  induction piece as [|c piece IH].
  - intros _. change (EmptyString +:+ String sep rest) with (String sep rest).
    simpl. by rewrite decide_True.
  - simpl. intros [Hc Hs]%orb_false_elim. apply bool_decide_eq_false in Hc.
    change (String c piece +:+ String sep rest)
      with (String c (piece +:+ String sep rest)).
    simpl. rewrite decide_False by done. by rewrite IH.
Qed.

Lemma str_split_join sep pieces :
  pieces ≠ [] →
  Forall (λ piece, path.str_contains sep piece = false) pieces →
  path.str_split sep (path.str_join (String sep EmptyString) pieces) = pieces.
Proof.
  induction pieces as [|piece pieces IH]; [done|]. intros _ Hall.
  apply list.Forall_cons in Hall as [Hpiece Hall].
  destruct pieces as [|piece' pieces].
  - simpl. by apply str_split_no_sep.
  - rewrite str_join_cons, append_String, append_empty.
    rewrite str_split_append by done. by rewrite IH.
Qed.

Lemma str_split_pieces sep s :
  Forall (λ piece, path.str_contains sep piece = false) (path.str_split sep s).
Proof.
  induction s as [|c s IH]; simpl; [by repeat constructor|].
  case_decide as Hc; [by constructor|].
  pose proof (str_split_nonempty sep s) as Hne.
  destruct (path.str_split sep s) as [|piece pieces]; [done|].
  apply list.Forall_cons in IH as [Hpiece Hpieces].
  constructor; [|done]. simpl. rewrite Hpiece.
  by rewrite bool_decide_eq_false_2.
Qed.

Lemma str_lstrip_fixed chars s :
  path.str_lstrip chars s = s ↔ str_startswith_any chars s = false.
Proof.
  destruct s as [|c s]; simpl; [done|]. case_decide as Hc.
  - rewrite bool_decide_eq_true_2 by done. split; [|done]. intros Heq.
    assert (String.length (path.str_lstrip chars s) ≤ String.length s)%nat as Hlen.
    { clear. induction s as [|c s IH]; simpl; [done|].
      case_decide; simpl; lia. }
    rewrite Heq in Hlen. simpl in Hlen. lia.
  - by rewrite bool_decide_eq_false_2.
Qed.

Lemma str_lstrip_stripped chars s :
  str_startswith_any chars (path.str_lstrip chars s) = false.
Proof.
  induction s as [|c s IH]; simpl; [done|]. case_decide as Hc; [done|].
  simpl. by rewrite bool_decide_eq_false_2.
Qed.

Lemma str_lstrip_prefix chars pre s :
  str_all_in chars pre = true →
  path.str_lstrip chars (pre +:+ s) = path.str_lstrip chars s.
Proof.
  induction pre as [|c pre IH]; simpl; [done|].
  intros [Hc Hpre]%andb_true_iff. apply bool_decide_eq_true in Hc.
  rewrite ?append_String. simpl. rewrite decide_True by done. by apply IH.
Qed.

(** X14: [str(AttrPath.from_str(s))] is ["$."] followed by [s] without its
    leading run of ['$'] and ['.'] characters: the text form of a parsed
    path is the normal form of the string. *)
Theorem AttrPath_str_from_str s :
  path.AttrPath_str (path.AttrPath_from_str s)
  = "$." +:+ path.str_lstrip [path.dollar; path.dot] s.
Proof.
  unfold path.AttrPath_str, path.AttrPath_from_str. simpl.
  f_equal. apply (str_join_split path.dot).
Qed.

(** X15: [AttrPath.from_str(str(p))] gives [p] back exactly when [p] is an
    [AttrPath] with at least one component, no component holds a ['.'], and
    the joined components do not begin with ['$'] or ['.']. *)
Theorem AttrPath_from_str_str p :
  path.AttrPath_from_str (path.AttrPath_str p) = p ↔
  path.path_type p = path.TAttrPath ∧
  path.components p ≠ [] ∧
  Forall (λ c, path.str_contains path.dot c = false) (path.components p) ∧
  str_startswith_any [path.dollar; path.dot]
    (path.str_join "." (path.components p)) = false.
Proof.
  destruct p as [ty cs]. unfold path.AttrPath_from_str, path.AttrPath_str.
  cbn [path.components path.path_type].
  assert (path.str_lstrip [path.dollar; path.dot]
            ("$." +:+ path.str_join "." cs)
          = path.str_lstrip [path.dollar; path.dot] (path.str_join "." cs))
    as -> by by apply str_lstrip_prefix.
  split.
  - intros [= <- Hcs].
    assert (path.str_lstrip [path.dollar; path.dot] (path.str_join "." cs)
            = path.str_join "." cs) as Hfixed.
    { pose proof (str_join_split path.dot
        (path.str_lstrip [path.dollar; path.dot] (path.str_join "." cs)))
        as Hjoin.
      rewrite Hcs in Hjoin. symmetry. exact Hjoin. }
    split; [done|]. split; [|split].
    + rewrite <-Hcs. apply str_split_nonempty.
    + rewrite <-Hcs. apply str_split_pieces.
    + by apply str_lstrip_fixed.
  - intros (-> & Hne & Hall & Hstart). f_equal.
    apply str_lstrip_fixed in Hstart. rewrite Hstart.
    by apply (str_split_join path.dot).
Qed.

(** X16: [AttrPath.from_str] and [KeyPath.from_str] never return an empty
    path, no component they return holds the separator, and a leading run
    of ['$'] and separator characters is ignored, whatever its length. *)
Theorem from_str_components s prefix :
  (path.components (path.AttrPath_from_str s) ≠ [] ∧
   Forall (λ c, path.str_contains path.dot c = false)
     (path.components (path.AttrPath_from_str s)) ∧
   (str_all_in [path.dollar; path.dot] prefix = true →
    path.AttrPath_from_str (prefix +:+ s) = path.AttrPath_from_str s)) ∧
  (path.components (path.KeyPath_from_str s) ≠ [] ∧
   Forall (λ c, path.str_contains path.colon c = false)
     (path.components (path.KeyPath_from_str s)) ∧
   (str_all_in [path.dollar; path.colon] prefix = true →
    path.KeyPath_from_str (prefix +:+ s) = path.KeyPath_from_str s)).
Proof.
  unfold path.AttrPath_from_str, path.KeyPath_from_str. simpl.
  split; (split; [apply str_split_nonempty|]);
    (split; [apply str_split_pieces|]);
    intros Hprefix; by rewrite str_lstrip_prefix.
Qed.

Lemma from_str_components_witness :
  path.AttrPath_from_str ("$$.." +:+ "a.b") = path.AttrPath_from_str "a.b" ∧
  path.KeyPath_from_str ("$:" +:+ "a:b") = path.KeyPath_from_str "a:b".
Proof.
  destruct (from_str_components "a.b" "$$..") as [(_ & _ & Hattr) _].
  destruct (from_str_components "a:b" "$:") as [_ (_ & _ & Hkey)].
  split; [apply Hattr|apply Hkey]; reflexivity.
Defined.

(** ** Following a path *)

Lemma last_unfiltered {A} (ys : list A) (d : A) :
  path.last ys d None = default d (list.last ys).
Proof.
  unfold path.last. rewrite deque_maxlen_1_last.
  assert (List.filter (path.selected None) ys = ys) as ->.
  { induction ys as [|y ys IH]; [done|]. simpl. by rewrite IH. }
  by destruct (list.last ys).
Qed.

Section following.
Context `{path.Objects}.

Lemma follow_loop_steps self cwd cs ys e :
  path.follow_loop self cwd cs = (ys, e) →
  (length ys ≤ length cs)%nat ∧
  (∀ i prev c v,
     (cwd :: ys) !! i = Some prev → cs !! i = Some c → ys !! i = Some v →
     path._getter self prev c = inl v) ∧
  match e with
  | None => length ys = length cs
  | Some err =>
      ∃ prev c, (cwd :: ys) !! length ys = Some prev ∧
                cs !! length ys = Some c ∧
                path._getter self prev c = inr err
  end.
Proof.
  revert cwd ys e. induction cs as [|c cs IH]; intros cwd ys e; simpl.
  - intros [= <- <-]. split; [done|]. split; [|done].
    intros i prev c v _ Hc. by rewrite lookup_nil in Hc.
  - destruct (path._getter self cwd c) as [cwd'|err] eqn:Hget.
    + destruct (path.follow_loop self cwd' cs) as [ys' e'] eqn:Hloop.
      intros [= <- <-]. destruct (IH cwd' ys' e' Hloop) as (Hlen & Hsteps & Hend).
      split; [simpl; lia|]. split.
      * intros [|i] prev c' v; simpl.
        -- by intros [= <-] [= <-] [= <-].
        -- apply Hsteps.
      * destruct e' as [err|]; simpl; [|by rewrite Hend].
        destruct Hend as (prev & c' & Hprev & Hc' & Herr). by exists prev, c'.
    + intros [= <- <-]. split; [simpl; lia|]. split.
      * intros i prev c' v _ _ Hv. by rewrite lookup_nil in Hv.
      * by exists cwd, c.
Qed.

(** X17: [follow] yields at most one value per component, each the getter's
    result for the value before it (the object itself at the start); it
    yields one value for every component when no getter raises, and
    otherwise stops with the exception of the first getter that raises. *)
Theorem follow_steps self obj ys e :
  path.follow self obj = (ys, e) →
  (length ys ≤ length (path.components self))%nat ∧
  (∀ i prev c v,
     (obj :: ys) !! i = Some prev → path.components self !! i = Some c →
     ys !! i = Some v →
     path._getter self prev c = inl v) ∧
  match e with
  | None => length ys = length (path.components self)
  | Some err =>
      ∃ prev c, (obj :: ys) !! length ys = Some prev ∧
                path.components self !! length ys = Some c ∧
                path._getter self prev c = inr err
  end.
Proof. apply follow_loop_steps. Qed.

(** The values do not depend on which path of the class is followed;
    only the [InvalidPath] exception carries the path. *)
Lemma follow_loop_same_type self self' cwd cs ys :
  path.path_type self = path.path_type self' →
  path.follow_loop self cwd cs = (ys, None) →
  path.follow_loop self' cwd cs = (ys, None).
Proof.
  intros Hty. revert cwd ys. induction cs as [|c cs IH]; intros cwd ys; [done|].
  simpl. unfold path._getter. rewrite <-Hty.
  destruct (path.path_type self); [done| |].
  - destruct (path.py_getattr cwd c) as [v| |err]; [|done|done].
    destruct (path.follow_loop self v cs) as [ys' e'] eqn:Hloop.
    intros [= <- ->]. by rewrite (IH v ys').
  - destruct (path.py_getitem cwd c) as [v| |err]; [|done|done].
    destruct (path.follow_loop self v cs) as [ys' e'] eqn:Hloop.
    intros [= <- ->]. by rewrite (IH v ys').
Qed.

Lemma follow_loop_app self cwd cs1 cs2 ys zs e :
  path.follow_loop self cwd cs1 = (ys, None) →
  path.follow_loop self (path.last ys cwd None) cs2 = (zs, e) →
  path.follow_loop self cwd (cs1 ++ cs2) = ((ys ++ zs)%list, e).
Proof.
  revert cwd ys. induction cs1 as [|c cs1 IH]; intros cwd ys; simpl.
  - by intros [= <-].
  - destruct (path._getter self cwd c) as [cwd'|err]; [|done].
    destruct (path.follow_loop self cwd' cs1) as [ys' e'] eqn:Hloop.
    intros [= <- ->] Hzs. rewrite (IH cwd' ys' Hloop); [done|].
    rewrite <-Hzs. f_equal. rewrite !last_unfiltered, last_cons.
    by destruct (list.last ys').
Qed.

Lemma last_nonempty {A} (ys : list A) (d d' : A) :
  ys ≠ [] → path.last ys d None = path.last ys d' None.
Proof.
  rewrite !last_unfiltered.
  destruct ys as [|y ys] using rev_ind; [done|]. by rewrite last_snoc.
Qed.

(** X18: [cd] with an empty path returns [None], not the object; along a
    path that is the concatenation of two non-empty parts, [cd] is [cd]
    along the first part followed by [cd] along the second. *)
Theorem cd_composes ty obj cs1 cs2 v w :
  path.cd obj (path.mkPath ty []) = inl path.py_None ∧
  (cs1 ≠ [] → cs2 ≠ [] →
   path.cd obj (path.mkPath ty cs1) = inl v →
   path.cd v (path.mkPath ty cs2) = inl w →
   path.cd obj (path.mkPath ty (cs1 ++ cs2)) = inl w).
Proof.
  split; [done|]. intros Hcs1 Hcs2. unfold path.cd, path.follow. simpl.
  destruct (path.follow_loop (path.mkPath ty cs1) obj cs1)
    as [ys [e|]] eqn:Hys; [done|].
  intros [= Hv].
  destruct (path.follow_loop (path.mkPath ty cs2) v cs2)
    as [zs [e|]] eqn:Hzs; [done|].
  intros [= Hw].
  destruct (follow_loop_steps _ _ _ _ _ Hys) as (_ & _ & Hlen1).
  destruct (follow_loop_steps _ _ _ _ _ Hzs) as (_ & _ & Hlen2).
  assert (ys ≠ []) as Hys_ne by (intros ->; by destruct cs1).
  assert (zs ≠ []) as Hzs_ne by (intros ->; by destruct cs2).
  rewrite (follow_loop_app _ obj cs1 cs2 ys zs None).
  - f_equal. rewrite <-Hw, !last_unfiltered.
    destruct zs as [|z zs] using rev_ind; [done|].
    by rewrite app_assoc, !last_snoc.
  - by apply (follow_loop_same_type (path.mkPath ty cs1)).
  - rewrite (last_nonempty ys obj path.py_None) by done. rewrite Hv.
    by apply (follow_loop_same_type (path.mkPath ty cs2)).
Qed.

End following.

Lemma follow_steps_witness :
  (length [path.TObject [("b", path.TInt 7)]]
   ≤ length (path.components (path.mkPath path.TAttrPath ["a"; "x"])))%nat.
Proof.
  destruct (@follow_steps path.Tree_objects
              (path.mkPath path.TAttrPath ["a"; "x"]) path.example_obj
              [path.TObject [("b", path.TInt 7)]]
              (Some (@path.InvalidPath path.Tree_objects
                       (path.mkPath path.TAttrPath ["a"; "x"])
                       (path.TObject [("b", path.TInt 7)]))))
    as [Hlen _].
  - reflexivity.
  - exact Hlen.
Defined.

Lemma cd_composes_witness :
  @path.cd path.Tree_objects path.example_obj
    (path.mkPath path.TAttrPath (["a"] ++ ["b"])) = inl (path.TInt 7).
Proof.
  destruct (@cd_composes path.Tree_objects path.TAttrPath path.example_obj
              ["a"] ["b"] (path.TObject [("b", path.TInt 7)]) (path.TInt 7))
    as [_ Hcd].
  apply Hcd; [done|done|reflexivity|reflexivity].
Defined.

Section cursors.
Context `{path.Objects}.

(** X19: [follow_or] is never ended by [InvalidPath] and yields at most one
    value per component: where [follow] runs to its end it yields the same
    values; where [follow] is ended by [InvalidPath] it yields the values
    [follow] yielded, then [default], and ends normally; any other
    exception ends it as it ends [follow]. *)
Theorem follow_or_replaces_invalid_path self obj default ys e :
  path.follow self obj = (ys, e) →
  (∀ p o, (path.follow_or self obj default).2 ≠ Some (path.InvalidPath p o)) ∧
  (length (path.follow_or self obj default).1
   ≤ length (path.components self))%nat ∧
  (e = None → path.follow_or self obj default = (ys, None)) ∧
  (∀ p o, e = Some (path.InvalidPath p o) →
          path.follow_or self obj default = ((ys ++ [default])%list, None)) ∧
  (∀ err, e = Some err → (∀ p o, err ≠ path.InvalidPath p o) →
          path.follow_or self obj default = (ys, Some err)).
Proof.
  intros Hfollow. destruct (follow_steps self obj ys e Hfollow) as (Hlen & _ & Hend).
  unfold path.follow_or. rewrite Hfollow.
  split; [|split; [|split; [|split]]].
  - intros p o. by destruct e as [[]|].
  - destruct e as [err|]; [|done].
    destruct Hend as (prev & c & _ & Hc & _).
    apply lookup_lt_Some in Hc.
    destruct err; simpl; rewrite ?length_app; simpl; lia.
  - by intros ->.
  - by intros p o ->.
  - intros err -> Hother. destruct err as [p o| | | | |exc]; try done.
    by destruct (Hother p o).
Qed.

(** X20: [Cursor.back] raises [ValueError] on an empty track; otherwise it
    returns a cursor whose track has lost its last two entries (its only
    entry, when there is one) and whose destination has the name of the
    lost last entry in front. *)
Theorem back_drops_two (self : path.Cursor) :
  (path.track self = [] → path.back self = inr path.ValueError) ∧
  (∀ e, path.track self = [e] →
        path.back self =
        inl {| path.track := [];
               path.destination := path.prepend (path.destination self) e.1 |}) ∧
  (∀ t e1 e2, path.track self = (t ++ [e1; e2])%list →
        path.back self =
        inl {| path.track := t;
               path.destination := path.prepend (path.destination self) e2.1 |}).
Proof.
  unfold path.back. split; [|split].
  - by intros ->.
  - intros [at_ v] ->. done.
  - intros t e1 [at_ v] ->.
    assert ((t ++ [e1; (at_, v)])%list = ((t ++ [e1]) ++ [(at_, v)])%list)
      as Hsplit by by rewrite <-app_assoc.
    rewrite Hsplit, last_snoc, !length_app. simpl.
    replace (length t + 1 + 1 - 2) with (length t) by lia.
    by rewrite <-!app_assoc, take_app_length.
Qed.

(** X21: [Cursor.forward] raises [ValueError] when the track or the
    destination is empty.  Otherwise it looks up the first component of the
    destination in the focus: when the getter raises, so does [forward];
    when it returns [v], the new cursor has [v] as its focus ([get]
    returns it), the old track with [(component, v)] added, and the old
    destination with the name of the old focus in front: no component is
    taken off the destination. *)
Theorem forward_focus (self : path.Cursor) t at_ focus c cs :
  (path.track self = [] ∨ path.components (path.destination self) = [] →
   path.forward self = inr path.ValueError) ∧
  (path.track self = (t ++ [(at_, focus)])%list →
   path.components (path.destination self) = c :: cs →
   match path._getter (path.destination self) focus c with
   | inl v =>
       ∃ next_cursor,
         path.forward self = inl next_cursor ∧
         path.get next_cursor = inl v ∧
         path.track next_cursor = (path.track self ++ [(c, v)])%list ∧
         path.components (path.destination next_cursor) = at_ :: c :: cs
   | inr err => path.forward self = inr err
   end).
Proof.
  unfold path.forward. split.
  - intros [-> | ->]; [done|]. by destruct (list.last (path.track self)) as [[]|].
  - intros Htrack Hdest. rewrite Htrack, last_snoc, Hdest.
    unfold path.follow. rewrite Hdest. simpl.
    destruct (path._getter (path.destination self) focus c) as [v|err]; [|done].
    destruct (path.follow_loop (path.destination self) v cs) as [ys e].
    simpl. eexists. split; [done|]. unfold path.get. simpl.
    rewrite last_snoc. by rewrite Hdest.
Qed.

(** X22: [back] after a [forward] that returned does not give the cursor
    back: the track is the original track without its last entry, and the
    destination has two more components than the original one. *)
Theorem back_after_forward (self next_cursor : path.Cursor) t at_ focus :
  path.track self = (t ++ [(at_, focus)])%list →
  path.forward self = inl next_cursor →
  ∃ c,
    head (path.components (path.destination self)) = Some c ∧
    path.back next_cursor =
    inl {| path.track := t;
           path.destination :=
             path.prepend (path.prepend (path.destination self) at_) c |}.
Proof.
  intros Htrack. unfold path.forward. rewrite Htrack, last_snoc.
  destruct (path.components (path.destination self)) as [|c cs]; [done|].
  destruct (path.next (path.follow (path.destination self) focus))
    as [v|err]; [|done].
  intros [= <-]. exists c. split; [done|].
  destruct (back_drops_two
              {| path.track := ((t ++ [(at_, focus)]) ++ [(c, v)])%list;
                 path.destination := path.prepend (path.destination self) at_ |})
    as (_ & _ & Hback).
  apply (Hback t (at_, focus) (c, v)). simpl. by rewrite <-app_assoc.
Qed.

End cursors.

Lemma follow_or_replaces_invalid_path_witness :
  @path.follow_or path.Tree_objects (path.mkPath path.TAttrPath ["a"; "x"])
    path.example_obj path.TNone
  = ([path.TObject [("b", path.TInt 7)]; path.TNone], None).
Proof.
  destruct (@follow_or_replaces_invalid_path path.Tree_objects
              (path.mkPath path.TAttrPath ["a"; "x"]) path.example_obj path.TNone
              [path.TObject [("b", path.TInt 7)]]
              (Some (@path.InvalidPath path.Tree_objects
                       (path.mkPath path.TAttrPath ["a"; "x"])
                       (path.TObject [("b", path.TInt 7)]))))
    as (_ & _ & _ & Hinvalid & _).
  - reflexivity.
  - exact (Hinvalid _ _ eq_refl).
Defined.

Lemma back_drops_two_witness :
  path.back
    (path.Tree_cursor
       [("x", path.TInt 1); ("y", path.TInt 2); ("z", path.TInt 3)]
       (path.mkPath path.TAttrPath ["a"]))
  = inl (path.Tree_cursor [("x", path.TInt 1)]
           (path.mkPath path.TAttrPath ["z"; "a"])).
Proof.
  destruct (back_drops_two
    (path.Tree_cursor
       [("x", path.TInt 1); ("y", path.TInt 2); ("z", path.TInt 3)]
       (path.mkPath path.TAttrPath ["a"])))
    as (_ & _ & Hback).
  exact (Hback [("x", path.TInt 1)] ("y", path.TInt 2) ("z", path.TInt 3) eq_refl).
Defined.

Lemma forward_focus_witness :
  ∃ next_cursor,
    path.forward
      (path.Tree_cursor [("root", path.example_obj)]
         (path.mkPath path.TAttrPath ["a"; "b"]))
    = inl next_cursor ∧
    path.get next_cursor = inl (path.TObject [("b", path.TInt 7)]) ∧
    path.track next_cursor
    = [("root", path.example_obj); ("a", path.TObject [("b", path.TInt 7)])] ∧
    path.components (path.destination next_cursor) = ["root"; "a"; "b"].
Proof.
  destruct (forward_focus
    (path.Tree_cursor [("root", path.example_obj)]
       (path.mkPath path.TAttrPath ["a"; "b"]))
    [] "root" path.example_obj "a" ["b"]) as [_ Hforward].
  exact (Hforward eq_refl eq_refl).
Defined.

Lemma back_after_forward_witness :
  ∃ c,
    head ["a"; "b"] = Some c ∧
    path.back
      (path.Tree_cursor
         [("root", path.example_obj); ("a", path.TObject [("b", path.TInt 7)])]
         (path.mkPath path.TAttrPath ["root"; "a"; "b"]))
    = inl (path.Tree_cursor []
             (path.prepend
                (path.prepend (path.mkPath path.TAttrPath ["a"; "b"]) "root") c)).
Proof.
  apply (back_after_forward
    (path.Tree_cursor [("root", path.example_obj)]
       (path.mkPath path.TAttrPath ["a"; "b"]))
    (path.Tree_cursor
       [("root", path.example_obj); ("a", path.TObject [("b", path.TInt 7)])]
       (path.mkPath path.TAttrPath ["root"; "a"; "b"]))
    [] "root" path.example_obj).
  - reflexivity.
  - reflexivity.
Defined.

(** ** Chains of paths *)

(** X23: a [PathChain] of one or more paths of one class holds a single
    path of that class, with the components of all of them in order; in
    any [PathChain], two neighbouring subpaths are of different classes. *)
Theorem PathChain_merges_neighbours paths :
  (∀ ty, paths ≠ [] →
         Forall (λ p, path.path_type p = ty) paths →
         pathchain.PathChain_new paths
         = [path.mkPath ty (concat (path.components <$> paths))]) ∧
  (∀ i p q, pathchain.PathChain_new paths !! i = Some p →
            pathchain.PathChain_new paths !! S i = Some q →
            path.path_type p ≠ path.path_type q).
Proof.
  unfold pathchain.PathChain_new. split.
  - intros ty Hne Hall. induction paths as [|p paths IH]; [done|].
    apply list.Forall_cons in Hall as [Hp Hall]. simpl.
    destruct paths as [|p' paths].
    + simpl. by rewrite Hp.
    + specialize (IH ltac:(done) Hall).
      destruct (pathchain.groupby path.path_type (p' :: paths))
        as [|[k g] groups]; [done|].
      simpl in IH. injection IH as -> Hg Hgroups.
      apply fmap_nil_inv in Hgroups as ->.
      rewrite decide_True by done. simpl. do 3 f_equal. exact Hg.
  - induction paths as [|p paths IH]; [done|]. simpl.
    destruct (pathchain.groupby path.path_type paths) as [|[k g] groups];
      [by intros [|i]|].
    case_decide as Hk.
    + intros [|i] p1 p2; [|apply (IH (S i))].
      simpl. intros [= <-] Hq. simpl.
      apply (IH 0 (path.mkPath k (concat (path.components <$> g))) p2);
        [done|exact Hq].
    + intros [|i] p1 p2; [|apply (IH i)].
      simpl. by intros [= <-] [= <-].
Qed.

Lemma PathChain_merges_neighbours_witness :
  pathchain.PathChain_new
    [path.mkPath path.TAttrPath ["a"]; path.mkPath path.TAttrPath ["b"; "c"]]
  = [path.mkPath path.TAttrPath
       (concat (path.components <$>
          [path.mkPath path.TAttrPath ["a"];
           path.mkPath path.TAttrPath ["b"; "c"]]))].
Proof.
  destruct (PathChain_merges_neighbours
    [path.mkPath path.TAttrPath ["a"]; path.mkPath path.TAttrPath ["b"; "c"]])
    as [Hmerge _].
  apply Hmerge; [done|]. by repeat constructor.
Defined.

Section chains.
Context `{path.Objects}.

Lemma chain_follow_cons subpath subpaths cwd ys :
  pathchain.follow (subpath :: subpaths) cwd = (ys, None) ↔
  ∃ ys1 ys2,
    path.follow subpath cwd = (ys1, None) ∧
    pathchain.follow subpaths (default cwd (list.last ys1)) = (ys2, None) ∧
    ys = (ys1 ++ ys2)%list.
Proof.
  simpl. destruct (path.follow subpath cwd) as [ys1 [e|]]; split.
  - done.
  - by intros (? & ? & [=] & _).
  - destruct (pathchain.follow subpaths (default cwd (list.last ys1)))
      as [ys2 e] eqn:Hrest.
    intros [= <- ->]. by exists ys1, ys2.
  - intros (ys1' & ys2 & [= <-] & -> & ->). done.
Qed.

Lemma follow_rebuilt p cwd :
  path.follow (path.mkPath (path.path_type p) (path.components p ++ [])) cwd
  = path.follow p cwd.
Proof. destruct p as [ty cs]. simpl. by rewrite app_nil_r. Qed.

Lemma last_app_default {A} (l1 l2 : list A) (d : A) :
  default d (list.last (l1 ++ l2)) = default (default d (list.last l1)) (list.last l2).
Proof.
  destruct l2 as [|x l2] using rev_ind.
  - by rewrite app_nil_r.
  - by rewrite app_assoc, !last_snoc.
Qed.

(** X24: where following the given paths one after the other, each from
    where the one before it ended, runs to its end, following the
    [PathChain] built from them yields the same values: merging
    neighbours of one class changes nothing that [follow] yields. *)
Theorem PathChain_follow_merged paths obj ys :
  pathchain.follow paths obj = (ys, None) →
  pathchain.follow (pathchain.PathChain_new paths) obj = (ys, None).
Proof.
  unfold pathchain.PathChain_new.
  revert obj ys. induction paths as [|p paths IH]; intros obj ys; [done|].
  intros (ys1 & zs & Hp & Hrest & ->)%chain_follow_cons.
  apply IH in Hrest. simpl.
  destruct (pathchain.groupby path.path_type paths) as [|[k g] groups].
  - simpl in *. rewrite follow_rebuilt, Hp. by injection Hrest as <-.
  - rewrite fmap_cons in Hrest.
    apply chain_follow_cons in Hrest as (zs1 & zs2 & Hg & Hgroups & ->).
    cbn [fst snd] in Hg. case_decide as Hk.
    + rewrite fmap_cons. apply chain_follow_cons. cbn [fst snd].
      exists (ys1 ++ zs1)%list, zs2. split; [|split].
      * unfold path.follow. simpl. apply follow_loop_app.
        -- apply (follow_loop_same_type p); [done|exact Hp].
        -- rewrite last_unfiltered.
           by apply (follow_loop_same_type
                       (path.mkPath k (concat (path.components <$> g)))).
      * by rewrite last_app_default.
      * by rewrite app_assoc.
    + rewrite !fmap_cons. apply chain_follow_cons. cbn [fst snd].
      exists ys1, (zs1 ++ zs2)%list. split; [|split; [|done]].
      * simpl. by rewrite follow_rebuilt.
      * apply chain_follow_cons. by exists zs1, zs2.
Qed.

End chains.

Lemma PathChain_follow_merged_witness :
  @pathchain.follow path.Tree_objects
    (pathchain.add (path.mkPath path.TAttrPath ["d"])
                   (path.mkPath path.TKeyPath ["k"]))
    path.example_obj
  = ([path.TDict [("k", path.TInt 8)]; path.TInt 8], None).
Proof.
  apply (@PathChain_follow_merged path.Tree_objects
           [path.mkPath path.TAttrPath ["d"]; path.mkPath path.TKeyPath ["k"]]).
  reflexivity.
Defined.

(** ** Text of a grown path *)

Lemma append_assoc_string (s t u : string) : (s +:+ t) +:+ u = s +:+ (t +:+ u).
Proof.
  induction s as [|c s IH]; [done|].
  change (String c ((s +:+ t) +:+ u) = String c (s +:+ (t +:+ u))).
  by rewrite IH.
Qed.

Lemma str_join_snoc sep cs c :
  cs ≠ [] →
  path.str_join sep (cs ++ [c]) = path.str_join sep cs +:+ sep +:+ c.
Proof.
  induction cs as [|c' cs IH]; [done|]. intros _.
  destruct cs as [|c'' cs]; [done|].
  change ((c' :: c'' :: cs) ++ [c])%list with (c' :: (c'' :: cs) ++ [c])%list.
  change ((c'' :: cs) ++ [c])%list with (c'' :: (cs ++ [c]))%list at 1.
  rewrite !str_join_cons.
  change (c'' :: (cs ++ [c]))%list with ((c'' :: cs) ++ [c])%list.
  rewrite IH by done. by rewrite !append_assoc_string.
Qed.

(** X25: for an [AttrPath] with at least one component, [str(p / c)] is
    [str(p)] followed by ['.'] and [c], and [str(c / p)] is ["$."], [c],
    ['.'] and the rest of [str(p)]; for the empty path both are ["$."]
    followed by [c].  Both operations keep the class of the path. *)
Theorem AttrPath_str_grows p c :
  (path.components p ≠ [] →
   path.AttrPath_str (path.truediv p c) = path.AttrPath_str p +:+ "." +:+ c ∧
   path.AttrPath_str (path.rtruediv p c)
   = "$." +:+ c +:+ "." +:+ path.str_join "." (path.components p)) ∧
  (path.components p = [] →
   path.AttrPath_str (path.truediv p c) = "$." +:+ c ∧
   path.AttrPath_str (path.rtruediv p c) = "$." +:+ c) ∧
  path.path_type (path.truediv p c) = path.path_type p ∧
  path.path_type (path.rtruediv p c) = path.path_type p.
Proof.
  unfold path.AttrPath_str, path.truediv, path.rtruediv, path.append,
    path.prepend.
  cbn [path.components path.path_type]. split; [|split; [|done]].
  - intros Hne. split.
    + rewrite str_join_snoc by done. by rewrite !append_assoc_string.
    + destruct (path.components p) as [|c' cs]; [done|].
      by rewrite str_join_cons.
  - by intros ->.
Qed.

Lemma AttrPath_str_grows_witness :
  path.AttrPath_str (path.truediv (path.mkPath path.TAttrPath ["a"; "b"]) "c")
  = path.AttrPath_str (path.mkPath path.TAttrPath ["a"; "b"]) +:+ "." +:+ "c".
Proof.
  destruct (AttrPath_str_grows (path.mkPath path.TAttrPath ["a"; "b"]) "c")
    as [Hgrow _].
  destruct (Hgrow ltac:(done)) as [Hdiv _]. exact Hdiv.
Defined.

(** ** Evaluation on small paths *)

Example from_str_examples :
  path.AttrPath_from_str "$.a.b" = path.mkPath path.TAttrPath ["a"; "b"] ∧
  path.AttrPath_from_str "" = path.mkPath path.TAttrPath [""] ∧
  path.AttrPath_from_str "$..a" = path.mkPath path.TAttrPath ["a"] ∧
  path.KeyPath_from_str "$:k:" = path.mkPath path.TKeyPath ["k"; ""] ∧
  path.AttrPath_str (path.mkPath path.TAttrPath []) = "$.".
Proof. repeat split; reflexivity. Qed.

Example cd_examples :
  @path.cd path.Tree_objects path.example_obj
    (path.mkPath path.TAttrPath ["a"; "b"]) = inl (path.TInt 7) ∧
  @path.cd path.Tree_objects path.example_obj
    (path.mkPath path.TAttrPath []) = inl path.TNone ∧
  @path.cd path.Tree_objects path.example_obj
    (path.mkPath path.TKeyPath ["a"])
  = inr (@path.Uncaught path.Tree_objects "TypeError") ∧
  @path.cd path.Tree_objects path.example_obj
    (path.mkPath path.TPath ["a"])
  = inr (@path.NotImplementedError path.Tree_objects).
Proof. repeat split; reflexivity. Qed.
